(** * DarkStone MTF archives: the extractor of [mtf.c], embedded and verified

    The development follows [mtf.c] function by function.  Bytes are
    [Byte.byte]; the fixed-width C integers are [Z] with their wrap-around
    written out; [FILE *] streams, the heap around the decompression buffer
    and the destination file system are explicit values, so that every C
    function becomes a total function that can be evaluated.

    Conventions taken from the build the sources target (x86, LP64):
    little-endian object representation for [fread] into an integer,
    two's-complement wrap-around for [int], an allocator that never
    returns [NULL] and an [fseek] that never fails (the branches of the
    source for these two failures, and their messages, are not
    modelled). *)

From Stdlib Require Import Strings.Byte Strings.String.
From Stdlib Require Import ZArith List Bool Lia Arith.
From Stdlib Require Import Sorting.Sorted Sorting.Permutation.
Import ListNotations.

Local Open Scope Z_scope.

(* ------------------------------------------------------------------ *)
(** ** Bytes and fixed-width integers *)

Definition u8 (b : byte) : Z := Z.of_N (Byte.to_N b).

(** [(uint8_t)ch] *)
Definition to_u8 (z : Z) : byte :=
  match Byte.of_N (Z.to_N (z mod 256)) with
  | Some b => b
  | None => x00
  end.

(** Conversion of a 32-bit pattern to [int]. *)
Definition sint32 (z : Z) : Z := (z + 2 ^ 31) mod 2 ^ 32 - 2 ^ 31.

(** Little-endian value of an object representation. *)
Fixpoint le_decode (bs : list byte) : Z :=
  match bs with
  | [] => 0
  | b :: bs' => u8 b + 256 * le_decode bs'
  end.

Fixpoint le_encode (n : nat) (z : Z) : list byte :=
  match n with
  | O => []
  | S n' => to_u8 z :: le_encode n' (z / 256)
  end.

(* ------------------------------------------------------------------ *)
(** ** The last-error messages of [mtf_error] *)

Inductive mtf_msg : Type :=
  | MsgMkdirFailed        (* "Impossible to create directory! mkdir(0777) failed." *)
  | MsgPathIsFile         (* "Can't mkdir()! Path points to a file." *)
  | MsgRead32             (* "mtf_read32() failed!" *)
  | MsgRead16             (* "mtf_read16() failed!" *)
  | MsgRead8              (* "mtf_read8() failed!" *)
  | MsgSizeMismatch       (* "Compressed/decompressed size mismatch!" *)
  | MsgWriteDecompressed  (* "Failed to write decompressed file data!" *)
  | MsgRawRead            (* "mtf_write_file(): Can't read source file entry!" *)
  | MsgRawWrite           (* "mtf_write_file(): Can't write dest file!" *)
  | MsgOpenInput          (* "Can't open input MTF file!" *)
  | MsgEntryCount         (* "Failed to read file entry count." *)
  | MsgNoFiles            (* "MTF appears to have no file! fileEntryCount == 0." *)
  | MsgFilenameLength     (* "file to read a filename length." *)
  | MsgOffsetOrSize       (* "Failed to read data offset or size." *)
  | MsgHeader             (* "Failed to read a compression info header!" *)
  | MsgCreateOutput.      (* "Can't create output file on extraction path!" *)

Definition mtf_msg_text (m : mtf_msg) : string :=
  (match m with
  | MsgMkdirFailed => "Impossible to create directory! mkdir(0777) failed."
  | MsgPathIsFile => "Can't mkdir()! Path points to a file."
  | MsgRead32 => "mtf_read32() failed!"
  | MsgRead16 => "mtf_read16() failed!"
  | MsgRead8 => "mtf_read8() failed!"
  | MsgSizeMismatch => "Compressed/decompressed size mismatch!"
  | MsgWriteDecompressed => "Failed to write decompressed file data!"
  | MsgRawRead => "mtf_write_file(): Can't read source file entry!"
  | MsgRawWrite => "mtf_write_file(): Can't write dest file!"
  | MsgOpenInput => "Can't open input MTF file!"
  | MsgEntryCount => "Failed to read file entry count."
  | MsgNoFiles => "MTF appears to have no file! fileEntryCount == 0."
  | MsgFilenameLength => "file to read a filename length."
  | MsgOffsetOrSize => "Failed to read data offset or size."
  | MsgHeader => "Failed to read a compression info header!"
  | MsgCreateOutput => "Can't create output file on extraction path!"
  end)%string.

Inductive error_kind : Type := IoError | FormatError.

(** Modelled from the spec: the source only has message strings; the two
    error kinds and which failure belongs to which are the spec's (its
    error-handling section): zero-entry table, a path component that is a
    plain file and the size mismatch are format errors, every open, seek,
    read, write or create failure is an I/O error. *)
Definition kind_of (m : mtf_msg) : error_kind :=
  match m with
  | MsgNoFiles | MsgPathIsFile | MsgSizeMismatch => FormatError
  | _ => IoError
  end.

(* ------------------------------------------------------------------ *)
(** ** Input streams ([FILE *] opened with "rb") *)

(** [f_data] are the bytes that can be read; what lies behind them is the
    end of the file, or, for a [f_faulty] stream, a device read error.
    [f_error] is the stream's error indicator ([ferror]). *)
Record FILE_in : Type := mkFILE_in {
  f_data : list byte;
  f_faulty : bool;
  f_pos : nat;
  f_error : bool
}.

Definition f_rest (f : FILE_in) : list byte := skipn (f_pos f) (f_data f).

(** [fread(buf, 1, n, f)]: the bytes delivered and the stream afterwards. *)
Definition fread (n : nat) (f : FILE_in) : list byte * FILE_in :=
  let got := firstn n (f_rest f) in
  (got,
   {| f_data := f_data f;
      f_faulty := f_faulty f;
      f_pos := (f_pos f + length got)%nat;
      f_error := f_error f || ((length got <? n)%nat && f_faulty f) |}).

(** [fseek(f, offset, SEEK_SET)] *)
Definition fseek (offset : Z) (f : FILE_in) : FILE_in :=
  {| f_data := f_data f;
     f_faulty := f_faulty f;
     f_pos := Z.to_nat offset;
     f_error := f_error f |}.

(** A partly read object keeps the bytes it had beyond those delivered. *)
Definition overlay (got old : list byte) : list byte :=
  got ++ skipn (length got) old.

(** [mtf_read32(fileIn, &dword)]: success flag, [dword] afterwards, stream. *)
Definition mtf_read32 (f : FILE_in) (dword : Z) : bool * Z * FILE_in :=
  let (got, f') := fread 4 f in
  ((length got =? 4)%nat, le_decode (overlay got (le_encode 4 dword)), f').

(** [mtf_read16]: the word is a fresh local, only observed on success. *)
Definition mtf_read16 (f : FILE_in) : option Z * FILE_in :=
  let (got, f') := fread 2 f in
  (if (length got =? 2)%nat then Some (le_decode got) else None, f').

(** [mtf_read8]: [fgetc], then [(uint8_t)ch]. *)
Definition mtf_read8 (f : FILE_in) : option byte * FILE_in :=
  let (got, f') := fread 1 f in
  (match got with
   | b :: _ => Some (to_u8 (u8 b))
   | [] => None
   end, f').

(** The [bool] a function returns, with the message [mtf_error] left in
    [mtfLastErrorStr] when it is [false]. *)
Inductive status : Type :=
  | Success
  | Failure (m : mtf_msg).

(* ------------------------------------------------------------------ *)
(** ** Destination file system *)

Definition path : Type := list byte.

(** What [S_ISDIR] tells apart in [st_mode]. *)
Inductive st_mode : Type := S_IFDIR | S_IFREG.

(** The C library and system calls the extractor makes on the destination
    side.  [fs_stat] is [None] when [stat] fails, [fs_mkdir] when [mkdir]
    fails, [fs_fopen_wb] when [fopen(path, "wb")] returns [NULL];
    [fs_fwrite] appends to the file opened at [path] and returns the
    number of bytes it accepted. *)
Class FileSystem (FS : Type) : Type := {
  fs_stat : FS -> path -> option st_mode;
  fs_mkdir : FS -> path -> option FS;
  fs_fopen_wb : FS -> path -> option FS;
  fs_fwrite : FS -> path -> list byte -> FS * nat
}.

(* ------------------------------------------------------------------ *)
(** ** [mtf_decompress_write_file] *)

Section Decompressor.

(** Memory at and around the fresh decompression buffer, addressed
    relative to [decompressBuffer]: whatever [malloc] handed out.  It is
    only read by a back-reference that reaches outside the bytes written
    so far. *)
Variable heap : Z -> byte.

(** [d_out] are the bytes stored through [decompressedPtr], in order, so
    [decompressedPtr - decompressBuffer] is its length; positions from
    [decompressedSize] on lie behind the allocated block.  [bytesRead] is
    only ever incremented in the source and is left out. *)
Record dstate : Type := mkD {
  d_in : FILE_in;
  d_out : list byte;
  bytesLeft : Z
}.

(** [*(decompressedPtr - offset)] *)
Definition peek (out : list byte) (offset : Z) : byte :=
  let i := Z.of_nat (length out) - offset in
  if (0 <=? i) && (i <? Z.of_nat (length out))
  then nth (Z.to_nat i) out x00
  else heap i.

(** The copy loop [for (n = 0; n < count + 3; ++n)], [n] rounds to go. *)
Fixpoint copy_run (n : nat) (offset : Z) (out : list byte) (left : Z)
  : list byte * Z :=
  match n with
  | O => (out, left)
  | S n' => copy_run n' offset (out ++ [peek out offset]) (sint32 (left - 1))
  end.

(** How one round of the bit loop ends: on to the next bit, [break], or
    [goto BAIL] with [hadError] set. *)
Inductive flow : Type :=
  | Next (s : dstate)
  | Break (s : dstate)
  | Bail (m : mtf_msg) (s : dstate).

Definition do_bit (chunkBits : byte) (b : Z) (s : dstate) : flow :=
  let flag := Z.land (u8 chunkBits) (Z.shiftl 1 b) in
  if negb (flag =? 0) then
    match mtf_read8 (d_in s) with
    | (None, f') => Bail MsgRead8 (mkD f' (d_out s) (bytesLeft s))
    | (Some b', f') =>
        Next (mkD f' (d_out s ++ [b']) (sint32 (bytesLeft s - 1)))
    end
  else
    match mtf_read16 (d_in s) with
    | (None, f') => Bail MsgRead16 (mkD f' (d_out s) (bytesLeft s))
    | (Some word, f') =>
        if word =? 0 then Break (mkD f' (d_out s) (bytesLeft s))
        else
          let count := Z.shiftr word 10 in
          let offset := Z.land word 1023 in
          let (out', left') :=
            copy_run (Z.to_nat (count + 3)) offset (d_out s) (bytesLeft s) in
          if left' <? 0 then Bail MsgSizeMismatch (mkD f' out' left')
          else Next (mkD f' out' left')
    end.

(** [for (b = ...; b < 8; ++b)] with [n] bits to go. *)
Fixpoint for_bits (n : nat) (b : Z) (chunkBits : byte) (s : dstate) : flow :=
  match n with
  | O => Next s
  | S n' =>
      match do_bit chunkBits b s with
      | Next s' => for_bits n' (b + 1) chunkBits s'
      | r => r
      end
  end.

(** [while (bytesLeft)].  Every round consumes its control byte, so the
    number of unread bytes bounds the rounds ([while_bytesLeft_total]). *)
Fixpoint while_bytesLeft (fuel : nat) (s : dstate)
  : option (option mtf_msg * dstate) :=
  if bytesLeft s =? 0 then Some (None, s)
  else
    match fuel with
    | O => None
    | S fuel' =>
        match mtf_read8 (d_in s) with
        | (None, f') => Some (Some MsgRead8, mkD f' (d_out s) (bytesLeft s))
        | (Some chunkBits, f') =>
            match for_bits 8 0 chunkBits (mkD f' (d_out s) (bytesLeft s)) with
            | Next s' | Break s' => while_bytesLeft fuel' s'
            | Bail m s' => Some (Some m, s')
            end
        end
    end.

(** The function up to the label [BAIL]: [hadError] with its message, and
    the state reached.  The assertions of the source ([decompressedSize]
    is not zero, the streams are open) are left to the caller. *)
Definition mtf_decode (fileIn : FILE_in) (decompressedSize : Z)
  : option mtf_msg * dstate :=
  let s0 := mkD fileIn [] (sint32 decompressedSize) in
  match while_bytesLeft (S (length (f_rest fileIn))) s0 with
  | Some r => r
  | None => (Some MsgRead8, s0)
  end.

(** The first [size] bytes at [decompressBuffer]. *)
Definition buffer_bytes (size : nat) (out : list byte) : list byte :=
  map (fun i => if (i <? length out)%nat then nth i out x00
                else heap (Z.of_nat i))
      (seq 0 size).

Context {FS : Type} `{FileSystem FS}.

Definition mtf_decompress_write_file (fs : FS) (fileOut : path)
    (fileIn : FILE_in) (decompressedSize : Z) : status * FS * FILE_in :=
  let (hadError, s) := mtf_decode fileIn decompressedSize in
  match hadError with
  | Some m => (Failure m, fs, d_in s)
  | None =>
      let size := Z.to_nat decompressedSize in
      let (fs', written) := fs_fwrite fs fileOut (buffer_bytes size (d_out s)) in
      if (written =? size)%nat then (Success, fs', d_in s)
      else (Failure MsgWriteDecompressed, fs', d_in s)
  end.

End Decompressor.

(* ------------------------------------------------------------------ *)
(** ** Path and directory helpers *)

(** A [char] read as [int]; [char] is signed on the targets. *)
Definition char_to_int (c : byte) : Z :=
  if u8 c <? 128 then u8 c else u8 c - 256.

Definition mtf_is_ascii (ch : Z) : bool := (0 <=? ch) && (ch <? 128).

(** The string a buffer holds: its bytes up to the first [NUL]. *)
Fixpoint c_str (buf : list byte) : list byte :=
  match buf with
  | [] => []
  | c :: buf' => if Byte.eqb c x00 then [] else c :: c_str buf'
  end.

(** Backslash and '/' are [x5c] and [x2f], '?' is [x3f]. *)
Fixpoint mtf_fix_filepath (p : list byte) : list byte :=
  match p with
  | [] => []
  | c :: p' =>
      if Byte.eqb c x00 then p
      else
        (if Byte.eqb c x5c then x2f
         else if negb (mtf_is_ascii (char_to_int c)) then x3f
         else c) :: mtf_fix_filepath p'
  end.

Section Paths.

Context {FS : Type} `{FileSystem FS}.

Definition mtf_make_directory (fs : FS) (dirPath : path) : status * FS :=
  match fs_stat fs dirPath with
  | None =>
      match fs_mkdir fs dirPath with
      | None => (Failure MsgMkdirFailed, fs)
      | Some fs' => (Success, fs')
      end
  | Some S_IFDIR => (Success, fs)
  | Some S_IFREG => (Failure MsgPathIsFile, fs)
  end.

(** The scan of [mtf_make_path]: [before] is the part of [dirPath] in
    front of [pPath] (the string [stat] and [mkdir] see once the separator
    is overwritten with [NUL]), [rest] the part from [pPath] on. *)
Fixpoint make_path_scan (fs : FS) (before rest : list byte) : status * FS :=
  match rest with
  | [] => (Success, fs)
  | c :: rest' =>
      if Byte.eqb c x00 then (Success, fs)
      else if Byte.eqb c x2f || Byte.eqb c x5c then
        match mtf_make_directory fs before with
        | (Success, fs') => make_path_scan fs' (before ++ [x2f]) rest'
        | failed => failed
        end
      else make_path_scan fs (before ++ [c]) rest'
  end.

(** The caller keeps the path shorter than [MTF_MAX_PATH_LEN], as the
    function asserts, so the [strncpy] copies all of it. *)
Definition mtf_make_path (fs : FS) (p : path) : status * FS :=
  make_path_scan fs [] p.

End Paths.

(* ------------------------------------------------------------------ *)
(** ** Compression header *)

Record mtf_compressed_header_t : Type := mkHeader {
  magic1 : byte;
  magic2 : byte;
  unknown : Z;
  compressedSize : Z;
  hdr_decompressedSize : Z
}.

(** The struct held by twelve bytes of memory. *)
Definition header_of_bytes (bs : list byte) : mtf_compressed_header_t :=
  {| magic1 := nth 0 bs x00;
     magic2 := nth 1 bs x00;
     unknown := le_decode (firstn 2 (skipn 2 bs));
     compressedSize := le_decode (firstn 4 (skipn 4 bs));
     hdr_decompressedSize := le_decode (firstn 4 (skipn 8 bs)) |}.

(** [mtf_read_compressed_header]: [local] are the twelve bytes the caller's
    uninitialised [compressedHeader] occupies; neither the [fseek] nor the
    [fread] result is looked at, only [ferror]. *)
Definition mtf_read_compressed_header (fileIn : FILE_in) (offset : Z)
    (local : list byte) : bool * mtf_compressed_header_t * FILE_in :=
  let (got, f') := fread 12 (fseek offset fileIn) in
  (negb (f_error f'), header_of_bytes (overlay got local), f').

Definition mtf_is_compressed (header : mtf_compressed_header_t) : bool :=
  if Byte.eqb (magic1 header) xae && Byte.eqb (magic2 header) xbe then true
  else if Byte.eqb (magic1 header) xaf && Byte.eqb (magic2 header) xbe then true
  else false.

(* ------------------------------------------------------------------ *)
(** ** [mtf_write_file] *)

Section RawCopy.

Context {FS : Type} `{FileSystem FS}.

Definition mtf_write_file (fs : FS) (fileOut : path) (fileIn : FILE_in)
    (sizeInBytes readOffset : Z) : status * FS * FILE_in :=
  let size := Z.to_nat sizeInBytes in
  let (readBuffer, f') := fread size (fseek readOffset fileIn) in
  if negb (length readBuffer =? size)%nat then (Failure MsgRawRead, fs, f')
  else
    let (fs', written) := fs_fwrite fs fileOut readBuffer in
    if negb (written =? size)%nat then (Failure MsgRawWrite, fs', f')
    else (Success, fs', f').

End RawCopy.

(* ------------------------------------------------------------------ *)
(** ** Archive handle and entry table *)

(** [filename] is the heap buffer, [None] for [NULL]. *)
Record mtf_file_entry_t : Type := mkEntry {
  filename : option (list byte);
  filenameLength : Z;
  dataOffset : Z;
  decompressedSize : Z
}.

Record mtf_file_t : Type := mkMtf {
  osFileHandle : option FILE_in;
  fileEntries : option (list mtf_file_entry_t);
  fileEntryCount : Z
}.

Definition MTF_EXTRACT_ALL : Z := -1.
Definition MTF_MAX_PATH_LEN : nat := 1024.

(** [strcmp] on two buffers; the end of a list reads as the terminator.
    Only the sign of the result is specified. *)
Fixpoint strcmp (a b : list byte) : Z :=
  match a with
  | [] => 0 - u8 (hd x00 b)
  | ca :: a' =>
      let cb := hd x00 b in
      if u8 ca =? u8 cb then (if u8 ca =? 0 then 0 else strcmp a' (tl b))
      else u8 ca - u8 cb
  end.

Definition name_of (entry : mtf_file_entry_t) : list byte :=
  match filename entry with
  | Some buf => buf
  | None => []
  end.

Definition mtf_sort_by_filename (a b : mtf_file_entry_t) : Z :=
  strcmp (name_of a) (name_of b).

(** [qsort]: the library fixes no algorithm, only that the array ends up
    ordered by the predicate; an insertion sort stands for it. *)
Fixpoint qsort_insert {A : Type} (cmp : A -> A -> Z) (x : A) (l : list A)
  : list A :=
  match l with
  | [] => [x]
  | y :: l' => if cmp x y <=? 0 then x :: l else y :: qsort_insert cmp x l'
  end.

Fixpoint qsort {A : Type} (cmp : A -> A -> Z) (l : list A) : list A :=
  match l with
  | [] => []
  | x :: l' => qsort_insert cmp x (qsort cmp l')
  end.

(** What a call hands back to the C library. *)
Inductive release : Type :=
  | Fclose
  | FreeFilename (buf : list byte)
  | FreeEntries.

Definition free_filename (entry : mtf_file_entry_t) : list release :=
  match filename entry with
  | Some buf => [FreeFilename buf]
  | None => []
  end.

(** [mtf_file_close]: the argument is [None] for a [NULL] pointer; the
    struct afterwards and the resources released, in order. *)
Definition mtf_file_close (mtf : option mtf_file_t)
  : option mtf_file_t * list release :=
  match mtf with
  | None => (None, [])
  | Some m =>
      let closed :=
        match osFileHandle m with
        | Some _ => [Fclose]
        | None => []
        end in
      match fileEntries m with
      | Some entries =>
          (Some (mkMtf None None 0),
           closed
           ++ flat_map free_filename
                (firstn (Z.to_nat (fileEntryCount m)) entries)
           ++ [FreeEntries])
      | None => (Some (mkMtf None None (fileEntryCount m)), closed)
      end
  end.

Definition entry_zero : mtf_file_entry_t := mkEntry None 0 0 0.

(** One round of the entry loop of [mtf_file_open]: the entry as the round
    leaves it and the stream.  The filename buffer holds the bytes read
    and the terminator stored at [filenameLength]; when the read falls
    short the bytes in between are not modelled, the load fails on the
    next word and the buffer is only freed.  A length of [0xFFFFFFFF],
    for which [filenameLength + 1] wraps to an empty allocation, is
    outside the model. *)
Definition read_entry (f : FILE_in) : status * mtf_file_entry_t * FILE_in :=
  let '(ok, len, f1) := mtf_read32 f 0 in
  if negb ok then (Failure MsgFilenameLength, mkEntry None len 0 0, f1)
  else
    let (got, f2) := fread (Z.to_nat len) f1 in
    let name := Some (got ++ [x00]) in
    let '(ok, off, f3) := mtf_read32 f2 0 in
    if negb ok then (Failure MsgOffsetOrSize, mkEntry name len off 0, f3)
    else
      let '(ok, size, f4) := mtf_read32 f3 0 in
      if negb ok then (Failure MsgOffsetOrSize, mkEntry name len off size, f4)
      else (Success, mkEntry name len off size, f4).

(** The loop [for (e = ...; e < fileEntryCount; ++e)], [n] rounds to go
    and [done] the entries already read; the array is [done], then the
    entry of the current round, then what [calloc] zeroed. *)
Fixpoint read_entries (n : nat) (f : FILE_in) (done : list mtf_file_entry_t)
  : status * list mtf_file_entry_t * FILE_in :=
  match n with
  | O => (Success, done, f)
  | S n' =>
      match read_entry f with
      | (Success, entry, f') => read_entries n' f' (done ++ [entry])
      | (Failure m, entry, f') =>
          (Failure m, done ++ entry :: repeat entry_zero n', f')
      end
  end.

(** [mtf_file_open]: [opened] is what [fopen(filename, "rb")] returned. *)
Definition mtf_file_open (opened : option FILE_in)
  : status * mtf_file_t * list release :=
  match opened with
  | None => (Failure MsgOpenInput, mkMtf None None 0, [])
  | Some f =>
      let '(ok, count, f1) := mtf_read32 f 0 in
      let fail m (mtf : mtf_file_t) :=
        match mtf_file_close (Some mtf) with
        | (Some mtf', freed) => (Failure m, mtf', freed)
        | (None, freed) => (Failure m, mtf, freed)
        end in
      if negb ok then fail MsgEntryCount (mkMtf (Some f1) None count)
      else if count =? 0 then fail MsgNoFiles (mkMtf (Some f1) None count)
      else
        match read_entries (Z.to_nat count) f1 [] with
        | (Failure m, entries, f2) =>
            fail m (mkMtf (Some f2) (Some entries) count)
        | (Success, entries, f2) =>
            (Success,
             mkMtf (Some f2) (Some (qsort mtf_sort_by_filename entries)) count,
             [])
        end
  end.

(* ------------------------------------------------------------------ *)
(** ** [mtf_file_extract_batch] *)

(** [snprintf(extractionPath, MTF_MAX_PATH_LEN, "%s/%s", destPath, name)] *)
Definition snprintf_path (destPath name : list byte) : list byte :=
  firstn (MTF_MAX_PATH_LEN - 1) (c_str destPath ++ [x2f] ++ c_str name).

Section Batch.

(** Indeterminate memory, per round [e] of the entry loop: the heap around
    that round's decompression buffer and the bytes of its uninitialised
    [compressedHeader]. *)
Variable heap : nat -> Z -> byte.
Variable stack : nat -> list byte.

Context {FS : Type} `{FileSystem FS}.

(** How one round of the entry loop ends: an early [return false], or the
    value of [success] with the file system and archive stream. *)
Inductive round : Type :=
  | Fatal (m : mtf_msg) (fs : FS) (f : FILE_in)
  | Done (success : bool) (fs : FS) (f : FILE_in).

Definition is_success (st : status) : bool :=
  match st with
  | Success => true
  | Failure _ => false
  end.

Definition extract_entry (e : nat) (destPath : list byte) (fs : FS)
    (f : FILE_in) (entry : mtf_file_entry_t) : round :=
  let '(ok, compressedHeader, f1) :=
    mtf_read_compressed_header f (dataOffset entry) (stack e) in
  if negb ok then Fatal MsgHeader fs f1
  else
    let extractionPath :=
      mtf_fix_filepath (snprintf_path destPath (name_of entry)) in
    let (_, fs1) := mtf_make_path fs extractionPath in
    match fs_fopen_wb fs1 extractionPath with
    | None => Fatal MsgCreateOutput fs1 f1
    | Some fs2 =>
        let '(st, fs3, f2) :=
          if mtf_is_compressed compressedHeader
          then mtf_decompress_write_file (heap e) fs2 extractionPath f1
                 (decompressedSize entry)
          else mtf_write_file fs2 extractionPath f1
                 (decompressedSize entry) (dataOffset entry) in
        Done (is_success st) fs3 f2
    end.

(** The entry loop when it is left other than by [return]: the loop index
    [e] it stopped at, whether by the [break] of the cap, and
    [successCount]. *)
Record loop_exit : Type := mkExit {
  exit_e : nat;
  exit_break : bool;
  exit_count : Z;
  exit_fs : FS;
  exit_file : FILE_in
}.

Fixpoint extract_loop (entries : list mtf_file_entry_t) (e : nat)
    (destPath : list byte) (maxFileToExtract : Z) (fs : FS) (f : FILE_in)
    (successCount : Z) : mtf_msg * FS * FILE_in + loop_exit :=
  match entries with
  | [] => inr (mkExit e false successCount fs f)
  | entry :: entries' =>
      match extract_entry e destPath fs f entry with
      | Fatal m fs' f' => inl (m, fs', f')
      | Done true fs' f' =>
          let successCount' := sint32 (successCount + 1) in
          if (0 <? maxFileToExtract) && (successCount' =? maxFileToExtract)
          then inr (mkExit e true successCount' fs' f')
          else extract_loop entries' (S e) destPath maxFileToExtract fs' f'
                 successCount'
      | Done false fs' f' =>
          extract_loop entries' (S e) destPath maxFileToExtract fs' f'
            successCount
      end
  end.

(** The call's [bool] and what it stores through [filesExtracted]
    ([None]: nothing stored). *)
Record batch_result : Type := mkBatch {
  batch_ok : bool;
  batch_error : option mtf_msg;
  filesExtracted : option Z;
  batch_fs : FS;
  batch_released : list release
}.

Definition mtf_file_extract_batch (opened : option FILE_in)
    (destPath : list byte) (maxFileToExtract : Z) (fs : FS) : batch_result :=
  match mtf_file_open opened with
  | (Failure m, _, freed) => mkBatch false (Some m) None fs freed
  | (Success, mtf, _) =>
      match osFileHandle mtf, fileEntries mtf with
      | Some f, Some entries =>
          match extract_loop (firstn (Z.to_nat (fileEntryCount mtf)) entries)
                  0 destPath maxFileToExtract fs f 0 with
          | inl (m, fs', f') =>
              mkBatch false (Some m) None fs'
                (snd (mtf_file_close
                        (Some (mkMtf (Some f') (Some entries)
                                 (fileEntryCount mtf)))))
          | inr x =>
              mkBatch true None (Some (exit_count x)) (exit_fs x)
                (snd (mtf_file_close
                        (Some (mkMtf (Some (exit_file x)) (Some entries)
                                 (fileEntryCount mtf)))))
          end
      | _, _ =>
          (* not reached: a handle opened with success has both *)
          mkBatch false None None fs []
      end
  end.

End Batch.

(* ------------------------------------------------------------------ *)
(** ** A small destination file system to run the extractor on *)

Module Toy.

Inductive node : Type :=
  | Dir
  | File (content : list byte).

(** The nodes by path, and the number of bytes the device still takes. *)
Record fs : Type := mkFs {
  nodes : list (path * node);
  room : nat
}.

Fixpoint path_eqb (p q : path) : bool :=
  match p, q with
  | [], [] => true
  | a :: p', b :: q' => Byte.eqb a b && path_eqb p' q'
  | _, _ => false
  end.

Fixpoint lookup (p : path) (l : list (path * node)) : option node :=
  match l with
  | [] => None
  | (q, n) :: l' => if path_eqb p q then Some n else lookup p l'
  end.

Fixpoint store (p : path) (n : node) (l : list (path * node))
  : list (path * node) :=
  match l with
  | [] => [(p, n)]
  | (q, m) :: l' => if path_eqb p q then (p, n) :: l' else (q, m) :: store p n l'
  end.

(** The directory part of a path: what precedes its last '/'. *)
Fixpoint parent (p : path) : option path :=
  match p with
  | [] => None
  | c :: p' =>
      match parent p' with
      | Some d => Some (c :: d)
      | None => if Byte.eqb c x2f then Some [] else None
      end
  end.

(** A relative path with no directory part lives in the working
    directory; otherwise the directory part must be a directory. *)
Definition parent_ok (p : path) (l : list (path * node)) : bool :=
  match parent p with
  | None => true
  | Some d =>
      match lookup d l with
      | Some Dir => true
      | _ => false
      end
  end.

Definition stat (t : fs) (p : path) : option st_mode :=
  match lookup p (nodes t) with
  | Some Dir => Some S_IFDIR
  | Some (File _) => Some S_IFREG
  | None => None
  end.

Definition mkdir (t : fs) (p : path) : option fs :=
  match p, lookup p (nodes t) with
  | _ :: _, None =>
      if parent_ok p (nodes t) then Some (mkFs (store p Dir (nodes t)) (room t))
      else None
  | _, _ => None
  end.

Definition fopen_wb (t : fs) (p : path) : option fs :=
  match p, lookup p (nodes t) with
  | [], _ => None
  | _, Some Dir => None
  | _, _ =>
      if parent_ok p (nodes t)
      then Some (mkFs (store p (File []) (nodes t)) (room t))
      else None
  end.

Definition fwrite (t : fs) (p : path) (bs : list byte) : fs * nat :=
  let n := Nat.min (length bs) (room t) in
  match lookup p (nodes t) with
  | Some (File old) =>
      (mkFs (store p (File (old ++ firstn n bs)) (nodes t)) (room t - n), n)
  | _ => (t, O)
  end.

#[global] Instance toy_fs : FileSystem fs :=
  {| fs_stat := stat; fs_mkdir := mkdir;
     fs_fopen_wb := fopen_wb; fs_fwrite := fwrite |}.

End Toy.

(* ------------------------------------------------------------------ *)
(** ** Vocabulary of the statements *)

(** A stream after [n] more bytes were read in full. *)
Definition advance (n : nat) (f : FILE_in) : FILE_in :=
  mkFILE_in (f_data f) (f_faulty f) (f_pos f + n) (f_error f).

(** A freshly opened stream over the bytes [bs]. *)
Definition file_of (bs : list byte) : FILE_in := mkFILE_in bs false 0 false.

Definition flow_state (r : flow) : dstate :=
  match r with
  | Next s | Break s | Bail _ s => s
  end.

(** The bit loop goes on to bit [b] only after a [Next]. *)
Definition then_bit (heap : Z -> byte) (c : byte) (r : flow) (b : Z) : flow :=
  match r with
  | Next s => do_bit heap c b s
  | _ => r
  end.

(** A compressed stream of set-bit chunks only: every control byte is
    [xff] and is followed by its eight literal bytes. *)
Fixpoint literal_chunks (k : nat) (lits : list byte) : list byte :=
  match k with
  | O => []
  | S k' => xff :: firstn 8 lits ++ literal_chunks k' (skipn 8 lits)
  end.

(** Zeroed memory, to run the decompressor on. *)
Definition heap0 : Z -> byte := fun _ => x00.

(* ------------------------------------------------------------------ *)
(** ** A five-entry archive to run the extractor on *)

Module Demo.

Definition le32 (z : Z) : list byte := le_encode 4 z.

(** One row of the entry table. *)
Definition row (name : list byte) (offset size : Z) : list byte :=
  le32 (Z.of_nat (length name)) ++ name ++ le32 offset ++ le32 size.

(** Compression header for [csize] compressed and [dsize] decompressed
    bytes. *)
Definition header (csize dsize : Z) : list byte :=
  [xae; xbe; x00; x00] ++ le32 csize ++ le32 dsize.

(** Entry data, in the order it lies in the archive. *)
Definition data_a : list byte := [x68; x69].
Definition data_b : list byte := header 6 4 ++ [x01; x41; x01; x00; x00; x00].
Definition data_c : list byte := header 4 3 ++ [x01; x41; x01; x00].
Definition data_d : list byte := [x21].
Definition data_e : list byte := [x62; x79; x65].

(** The table lists "e", "c", "a", "d", "b", in this order; the payload of
    "c" is corrupt: its back-reference runs over the declared three
    bytes. *)
Definition table : list byte :=
  le32 5
  ++ row [x65; x00] 111 3
  ++ row [x63; x00] 94 3
  ++ row [x61; x00] 74 2
  ++ row [x64; x00] 110 1
  ++ row [x62; x00] 76 4.

Definition archive : list byte :=
  table ++ data_a ++ data_b ++ data_c ++ data_d ++ data_e.

(** The destination root "out" and an empty file system with room for a
    hundred bytes. *)
Definition out : list byte := [x6f; x75; x74].
Definition disk : Toy.fs := Toy.mkFs [] 100.

Definition stack0 : nat -> list byte := fun _ => repeat x00 12.
Definition heaps0 : nat -> Z -> byte := fun _ _ => x00.

(** The handle [mtf_file_open] builds for the archive: its stream and its
    sorted table. *)
Definition opened : mtf_file_t := snd (fst (mtf_file_open (Some (file_of archive)))).

Definition stream : FILE_in :=
  match osFileHandle opened with
  | Some f => f
  | None => file_of []
  end.

Definition entries : list mtf_file_entry_t :=
  match fileEntries opened with
  | Some es => es
  | None => []
  end.

(** The same archive on a device that fails behind its last byte, and an
    entry that claims twelve bytes from offset 110 on. *)
Definition faulty_stream : FILE_in := mkFILE_in archive true 74 false.
Definition entry_at_end : mtf_file_entry_t := mkEntry (Some [x7a; x00]) 1 110 1.

End Demo.

(* ------------------------------------------------------------------ *)
(** ** Path materialization, as the specification words it *)

(** What becomes of one character of a path: a backslash turns into '/',
    a byte outside 0..127 into '?'. *)
Definition fix_char (c : byte) : byte :=
  if Byte.eqb c x5c then x2f
  else if 128 <=? u8 c then x3f
  else c.

(** The directory components of a path: for every separator, the part of
    the path in front of it, with '/' for the separators before. *)
Fixpoint dir_components (before rest : list byte) : list path :=
  match rest with
  | [] => []
  | c :: rest' =>
      if Byte.eqb c x00 then []
      else if Byte.eqb c x2f || Byte.eqb c x5c
           then before :: dir_components (before ++ [x2f]) rest'
           else dir_components (before ++ [c]) rest'
  end.

(** [mtf_make_directory] on each component in turn, up to the first one
    that fails. *)
Fixpoint make_directories {FS : Type} `{FileSystem FS} (fs : FS)
    (ds : list path) : status * FS :=
  match ds with
  | [] => (Success, fs)
  | d :: ds' =>
      match mtf_make_directory fs d with
      | (Success, fs') => make_directories fs' ds'
      | failed => failed
      end
  end.


Definition path_accented : list byte :=
  [x6f; x75; x74; x2f; x41; x2f; x42; x2f; x3f; x2e; x74; x78; x74].

(* ------------------------------------------------------------------ *)
(** ** The entry table, as its layout describes it *)

(** Whether [n] complete rows lie at the front of [bs]: a row is a 32-bit
    name length, that many bytes of name, and the two 32-bit words, data
    offset and decompressed size. *)
Fixpoint table_complete (n : nat) (bs : list byte) : bool :=
  match n with
  | O => true
  | S n' =>
      let len := Z.to_nat (le_decode (firstn 4 bs)) in
      (4 <=? length bs)%nat && (len + 12 <=? length bs)%nat
      && table_complete n' (skipn (len + 12) bs)
  end.

(** Byte-wise lexical order of two strings, bytes compared unsigned. *)
Fixpoint lex_le (a b : list byte) : Prop :=
  match a, b with
  | [], _ => True
  | _ :: _, [] => False
  | x :: a', y :: b' => u8 x < u8 y \/ (x = y /\ lex_le a' b')
  end.

(** The order a [qsort] predicate stands for. *)
Definition cmp_le {A : Type} (cmp : A -> A -> Z) (x y : A) : Prop :=
  cmp x y <= 0.

Definition filename_le : mtf_file_entry_t -> mtf_file_entry_t -> Prop :=
  cmp_le mtf_sort_by_filename.

(* ------------------------------------------------------------------ *)
(** ** Runs of the entry loop *)

Section Runs.

Variable heap : nat -> Z -> byte.
Variable stack : nat -> list byte.
Context {FS : Type} `{FileSystem FS}.



End Runs.


(* ------------------------------------------------------------------ *)
(** ** Vocabulary of the further properties *)

(** The remaining-bytes counter is the declared size less the bytes
    stored so far, as an [int]. *)
Definition counter_ok (size : Z) (s : dstate) : Prop :=
  bytesLeft s = sint32 (size - Z.of_nat (length (d_out s))).

(** Stored bytes plus 33 for every unread byte: a measure no step of the
    decoder raises. *)
Definition weight (s : dstate) : nat :=
  (length (d_out s) + 33 * length (f_rest (d_in s)))%nat.

(** What reading does to a stream: the bytes and the device stay the
    same, the error indicator is never cleared, and without device faults
    it is never set. *)
Definition stream_steps (f f' : FILE_in) : Prop :=
  f_data f' = f_data f
  /\ f_faulty f' = f_faulty f
  /\ (f_error f = true -> f_error f' = true)
  /\ (f_faulty f = false -> f_error f' = f_error f).

(** A stream on a device without faults with its error indicator clear. *)
Definition healthy (f : FILE_in) : Prop :=
  f_faulty f = false /\ f_error f = false.

(** The archive stream a round of the entry loop leaves. *)
Definition round_file {FS : Type} (r : @round FS) : FILE_in :=
  match r with
  | Fatal _ _ f | Done _ _ f => f
  end.

(** The destination file system a round leaves. *)
Definition round_fs {FS : Type} (r : @round FS) : FS :=
  match r with
  | Fatal _ fs _ | Done _ fs _ => fs
  end.

(** An entry of the demonstration archive that claims a thousand raw
    bytes from offset 74 on: more than the archive holds. *)
Definition entry_too_long : mtf_file_entry_t :=
  mkEntry (Some [x7a; x00]) 1 74 1000.

(** The entry table as it lies at the front of an archive: the count of
    entries, then for every entry the length of its name, the name, the
    data offset and the decompressed size, the words little-endian.  The
    program only reads archives; these are the bytes the reads of
    [mtf_file_open] go through, for a table given as rows of name, offset
    and size. *)
Definition table_row : Type := list byte * Z * Z.

Definition row_bytes (r : table_row) : list byte :=
  let '(name, offset, size) := r in
  le_encode 4 (Z.of_nat (length name)) ++ name
  ++ le_encode 4 offset ++ le_encode 4 size.

Definition table_bytes (rows : list table_row) : list byte :=
  le_encode 4 (Z.of_nat (length rows)) ++ flat_map row_bytes rows.

(** The entry [mtf_file_open] holds for a row. *)
Definition row_entry (r : table_row) : mtf_file_entry_t :=
  let '(name, offset, size) := r in
  mkEntry (Some (name ++ [x00])) (Z.of_nat (length name)) offset size.

(** A row whose three words fit their 32 bits, the length of the name
    with room for the terminator that [mtf_file_open] adds. *)
Definition row_fits (r : table_row) : Prop :=
  let '(name, offset, size) := r in
  Z.of_nat (length name) < 2 ^ 32 - 1
  /\ 0 <= offset < 2 ^ 32 /\ 0 <= size < 2 ^ 32.



(** The table a load leaves, empty when it fails. *)
Definition loaded_entries (opened : option FILE_in) : list mtf_file_entry_t :=
  match mtf_file_open opened with
  | (Success, mtf, _) =>
      match fileEntries mtf with
      | Some es => es
      | None => []
      end
  | _ => []
  end.

(** What the assertions on the way of a batch ask of its caller and of
    the archive: the destination is not the empty string
    ([mtf_file_extract_batch]) and no entry declares a decompressed size
    of zero ([mtf_decompress_write_file]). *)
Definition batch_asserts (opened : option FILE_in) (destPath : list byte)
  : Prop :=
  hd x00 destPath <> x00
  /\ Forall (fun e => decompressedSize e <> 0) (loaded_entries opened).

(* ------------------------------------------------------------------ *)
(** ** The last-error string *)

(** [mtfLastErrorStr] is [None] for the empty string.  [mtf_error]: what
    it returns and the string it leaves; a [NULL] message is [None]. *)
Definition mtf_error (message : option mtf_msg) : bool * option mtf_msg :=
  (false, message).

(** The string after a call that ended with [st]: a call that failed has
    gone through [mtf_error] with its message last, a call that succeeded
    has not gone through [mtf_error]. *)
Definition last_error_after (st : status) (mtfLastErrorStr : option mtf_msg)
  : option mtf_msg :=
  match st with
  | Success => mtfLastErrorStr
  | Failure m => snd (mtf_error (Some m))
  end.


Section LastError.

Variable heap : nat -> Z -> byte.
Variable stack : nat -> list byte.
Context {FS : Type} `{FileSystem FS}.

(** The string after round [e] of the entry loop.  The result of
    [mtf_make_path] is dropped by the round, its message is not. *)
Definition extract_entry_error (e : nat) (destPath : list byte) (fs : FS)
    (f : FILE_in) (entry : mtf_file_entry_t) (err : option mtf_msg)
  : option mtf_msg :=
  let '(ok, compressedHeader, f1) :=
    mtf_read_compressed_header f (dataOffset entry) (stack e) in
  if negb ok then snd (mtf_error (Some MsgHeader))
  else
    let extractionPath :=
      mtf_fix_filepath (snprintf_path destPath (name_of entry)) in
    let (made, fs1) := mtf_make_path fs extractionPath in
    let err1 := last_error_after made err in
    match fs_fopen_wb fs1 extractionPath with
    | None => snd (mtf_error (Some MsgCreateOutput))
    | Some fs2 =>
        let '(st, _, _) :=
          if mtf_is_compressed compressedHeader
          then mtf_decompress_write_file (heap e) fs2 extractionPath f1
                 (decompressedSize entry)
          else mtf_write_file fs2 extractionPath f1
                 (decompressedSize entry) (dataOffset entry) in
        last_error_after st err1
    end.

(** The string when the entry loop is left, by [return], by [break] or at
    its end. *)
Fixpoint extract_loop_error (entries : list mtf_file_entry_t) (e : nat)
    (destPath : list byte) (maxFileToExtract : Z) (fs : FS) (f : FILE_in)
    (successCount : Z) (err : option mtf_msg) : option mtf_msg :=
  match entries with
  | [] => err
  | entry :: entries' =>
      let err' := extract_entry_error e destPath fs f entry err in
      match extract_entry heap stack e destPath fs f entry with
      | Fatal _ _ _ => err'
      | Done true fs' f' =>
          let successCount' := sint32 (successCount + 1) in
          if (0 <? maxFileToExtract) && (successCount' =? maxFileToExtract)
          then err'
          else extract_loop_error entries' (S e) destPath maxFileToExtract
                 fs' f' successCount' err'
      | Done false fs' f' =>
          extract_loop_error entries' (S e) destPath maxFileToExtract
            fs' f' successCount err'
      end
  end.

(** The string after [mtf_file_extract_batch], from the string before. *)
Definition batch_last_error (opened : option FILE_in) (destPath : list byte)
    (maxFileToExtract : Z) (fs : FS) (err : option mtf_msg)
  : option mtf_msg :=
  match mtf_file_open opened with
  | (Failure m, _, _) => snd (mtf_error (Some m))
  | (Success, mtf, _) =>
      match osFileHandle mtf, fileEntries mtf with
      | Some f, Some entries =>
          extract_loop_error (firstn (Z.to_nat (fileEntryCount mtf)) entries)
            0 destPath maxFileToExtract fs f 0 err
      | _, _ => err
      end
  end.

End LastError.

(* ------------------------------------------------------------------ *)
(** ** [main] of [mtf_unpacker.c] *)




Section Main.

Variable heap : nat -> Z -> byte.
Variable stack : nat -> list byte.
Context {FS : Type} `{FileSystem FS}.

(** [fopen(name, "rb")] in the environment of the run. *)
Variable fopen_rb : list byte -> option FILE_in.


End Main.

(* ------------------------------------------------------------------ *)
(** ** A two-entry archive without a flaw *)

(** "b" holds [hi] and "a" holds [!], both stored raw behind the table of
    32 bytes. *)
Definition small_rows : list table_row :=
  [([x62; x00], 32, 2); ([x61; x00], 34, 1)].

Definition small_archive : list byte :=
  table_bytes small_rows ++ [x68; x69; x21].



(* ================================================================== *)
(** * Properties *)

(** ** Bytes and integers *)

Lemma u8_range (b : byte) : 0 <= u8 b < 256.
Proof.
  unfold u8. pose proof (Byte.to_N_bounded b). lia.
Qed.

Lemma to_u8_u8 (b : byte) : to_u8 (u8 b) = b.
Proof.
  unfold to_u8, u8.
  rewrite Z.mod_small by (pose proof (Byte.to_N_bounded b); lia).
  now rewrite N2Z.id, Byte.of_to_N.
Qed.

Lemma u8_inj (a b : byte) : u8 a = u8 b -> a = b.
Proof.
  intros E. rewrite <- (to_u8_u8 a), <- (to_u8_u8 b). now rewrite E.
Qed.

Lemma byte_eqb_eq (a b : byte) : Byte.eqb a b = true <-> a = b.
Proof.
  split.
  - apply Byte.byte_dec_bl.
  - apply Byte.byte_dec_lb.
Qed.

Lemma byte_eqb_neq (a b : byte) : Byte.eqb a b = false <-> a <> b.
Proof.
  split.
  - apply Byte.eqb_false.
  - intros N. destruct (Byte.eqb a b) eqn:E; [|reflexivity].
    now apply byte_eqb_eq in E.
Qed.

Lemma sint32_mod (a b : Z) : a mod 2 ^ 32 = b mod 2 ^ 32 -> sint32 a = sint32 b.
Proof.
  intros E. unfold sint32.
  rewrite <- (Zplus_mod_idemp_l a), <- (Zplus_mod_idemp_l b), E.
  reflexivity.
Qed.

Lemma sint32_sub (a b : Z) : sint32 (sint32 a - b) = sint32 (a - b).
Proof.
  apply sint32_mod. unfold sint32.
  replace ((a + 2 ^ 31) mod 2 ^ 32 - 2 ^ 31 - b)
    with ((a + 2 ^ 31) mod 2 ^ 32 + (- 2 ^ 31 - b)) by ring.
  rewrite Zplus_mod_idemp_l. f_equal. ring.
Qed.

Lemma sint32_small (a : Z) : - 2 ^ 31 <= a < 2 ^ 31 -> sint32 a = a.
Proof.
  intros R. unfold sint32. rewrite Z.mod_small; lia.
Qed.

Lemma sint32_zero_iff (a : Z) : sint32 a = 0 <-> a mod 2 ^ 32 = 0.
Proof.
  unfold sint32. split; intros E.
  - assert (E' : (a + 2 ^ 31) mod 2 ^ 32 = 2 ^ 31) by lia.
    replace a with ((a + 2 ^ 31) + - 2 ^ 31) by ring.
    rewrite <- Zplus_mod_idemp_l, E'. reflexivity.
  - rewrite <- Zplus_mod_idemp_l, E. reflexivity.
Qed.

Lemma sint32_pos_nonzero (a : Z) : 0 < a < 2 ^ 32 -> sint32 a <> 0.
Proof.
  intros R E. apply sint32_zero_iff in E.
  rewrite Z.mod_small in E; lia.
Qed.

(** ** Streams *)

Lemma f_rest_advance (n : nat) (f : FILE_in) :
  f_rest (advance n f) = skipn n (f_rest f).
Proof.
  unfold f_rest, advance; simpl. rewrite skipn_skipn. f_equal. lia.
Qed.

Lemma fread_full (n : nat) (f : FILE_in) :
  (n <= length (f_rest f))%nat ->
  fread n f = (firstn n (f_rest f), advance n f).
Proof.
  intros L. unfold fread, advance.
  rewrite length_firstn, Nat.min_l by exact L.
  rewrite Nat.ltb_irrefl. simpl. now rewrite orb_false_r.
Qed.

Lemma fread_short (n : nat) (f : FILE_in) :
  (length (f_rest f) < n)%nat ->
  fst (fread n f) = f_rest f /\ f_rest (snd (fread n f)) = [].
Proof.
  intros L. unfold fread; simpl. split.
  - apply firstn_all2. lia.
  - unfold f_rest in *; simpl. apply skipn_all2.
    rewrite length_firstn, length_skipn in *. lia.
Qed.

Lemma fread_rest_length (n : nat) (f : FILE_in) :
  (length (f_rest (snd (fread n f))) <= length (f_rest f))%nat.
Proof.
  unfold fread, f_rest; simpl. rewrite !length_skipn. lia.
Qed.

Lemma mtf_read8_cons (f : FILE_in) (x : byte) (r : list byte) :
  f_rest f = x :: r -> mtf_read8 f = (Some x, advance 1 f).
Proof.
  intros E. unfold mtf_read8.
  rewrite fread_full by (rewrite E; simpl; lia).
  rewrite E. simpl. now rewrite to_u8_u8.
Qed.

Lemma mtf_read16_cons (f : FILE_in) (lo hi : byte) (r : list byte) :
  f_rest f = lo :: hi :: r ->
  mtf_read16 f = (Some (u8 lo + 256 * u8 hi), advance 2 f).
Proof.
  intros E. unfold mtf_read16.
  rewrite fread_full by (rewrite E; simpl; lia).
  rewrite E. cbn [firstn length Nat.eqb le_decode]. do 2 f_equal. lia.
Qed.

Lemma mtf_read8_rest (f : FILE_in) :
  match mtf_read8 f with
  | (Some _, f') => (length (f_rest f') < length (f_rest f))%nat
  | (None, f') => (length (f_rest f') <= length (f_rest f))%nat
  end.
Proof.
  destruct (f_rest f) as [|x r] eqn:E.
  - unfold mtf_read8, fread. rewrite E. simpl.
    unfold f_rest in *; simpl. rewrite Nat.add_0_r, E. simpl. lia.
  - rewrite (mtf_read8_cons f x r E), f_rest_advance, E. simpl. lia.
Qed.

Lemma mtf_read16_rest (f : FILE_in) :
  (length (f_rest (snd (mtf_read16 f))) <= length (f_rest f))%nat.
Proof.
  unfold mtf_read16. pose proof (fread_rest_length 2 f) as L.
  destruct (fread 2 f) as [got f']. exact L.
Qed.

(** ** The decompressor *)

Section DecompressorFacts.

Variable heap : Z -> byte.

Lemma flag_testbit (c : byte) (b : Z) :
  0 <= b < 8 ->
  (Z.land (u8 c) (Z.shiftl 1 b) =? 0) = negb (Z.testbit (u8 c) b).
Proof.
  intros R.
  assert (C : b = 0 \/ b = 1 \/ b = 2 \/ b = 3 \/ b = 4 \/ b = 5 \/ b = 6 \/ b = 7)
    by lia.
  destruct C as [-> | [-> | [-> | [-> | [-> | [-> | [-> | ->]]]]]]];
    destruct c; reflexivity.
Qed.

Lemma do_bit_literal (c : byte) (b : Z) (s : dstate) (x : byte) (r : list byte) :
  0 <= b < 8 -> Z.testbit (u8 c) b = true -> f_rest (d_in s) = x :: r ->
  do_bit heap c b s
  = Next (mkD (advance 1 (d_in s)) (d_out s ++ [x]) (sint32 (bytesLeft s - 1))).
Proof.
  intros R T E. unfold do_bit.
  rewrite flag_testbit, T by exact R. cbn [negb].
  now rewrite (mtf_read8_cons _ x r E).
Qed.

Lemma do_bit_word (c : byte) (b : Z) (s : dstate) (lo hi : byte) (r : list byte) :
  0 <= b < 8 -> Z.testbit (u8 c) b = false -> f_rest (d_in s) = lo :: hi :: r ->
  do_bit heap c b s
  = let word := u8 lo + 256 * u8 hi in
    if word =? 0 then Break (mkD (advance 2 (d_in s)) (d_out s) (bytesLeft s))
    else
      let (out', left') :=
        copy_run heap (Z.to_nat (Z.shiftr word 10 + 3)) (Z.land word 1023)
          (d_out s) (bytesLeft s) in
      if left' <? 0 then Bail MsgSizeMismatch (mkD (advance 2 (d_in s)) out' left')
      else Next (mkD (advance 2 (d_in s)) out' left').
Proof.
  intros R T E. unfold do_bit.
  rewrite flag_testbit, T by exact R. cbn [negb].
  now rewrite (mtf_read16_cons _ lo hi r E).
Qed.

Lemma peek_inside (out : list byte) (offset : Z) :
  1 <= offset <= Z.of_nat (length out) ->
  peek heap out offset = nth (length out - Z.to_nat offset) out x00.
Proof.
  intros R. unfold peek.
  replace (0 <=? Z.of_nat (length out) - offset) with true
    by (symmetry; apply Z.leb_le; lia).
  replace (Z.of_nat (length out) - offset <? Z.of_nat (length out)) with true
    by (symmetry; apply Z.ltb_lt; lia).
  simpl. f_equal. lia.
Qed.

Lemma peek_last (out : list byte) (x : byte) : peek heap (out ++ [x]) 1 = x.
Proof.
  rewrite peek_inside by (rewrite length_app; simpl; lia).
  rewrite length_app. simpl.
  replace (length out + 1 - Pos.to_nat 1)%nat with (length out) by lia.
  now rewrite nth_middle.
Qed.

(** The bytes a copy run appends: each one is read [offset] positions
    behind the cursor as it stands when that byte is copied. *)
Lemma copy_run_bytes (n : nat) (offset : Z) (out : list byte) (left : Z) :
  exists ext,
    fst (copy_run heap n offset out left) = out ++ ext
    /\ length ext = n
    /\ forall i, (i < n)%nat ->
         nth i ext x00 = peek heap (out ++ firstn i ext) offset.
Proof.
  revert out left. induction n as [|n IH]; intros out left.
  - exists []. simpl. rewrite app_nil_r. repeat split. intros i L. lia.
  - simpl. destruct (IH (out ++ [peek heap out offset]) (sint32 (left - 1)))
      as (ext & E & L & P).
    exists (peek heap out offset :: ext). rewrite E, <- app_assoc. simpl.
    repeat split.
    + now rewrite L.
    + intros [|i] Li.
      * simpl. now rewrite app_nil_r.
      * simpl. rewrite (P i) by lia. now rewrite <- app_assoc.
Qed.

Lemma copy_run_left (n : nat) (offset : Z) (out : list byte) (left : Z) :
  snd (copy_run heap (S n) offset out left) = sint32 (left - Z.of_nat (S n)).
Proof.
  revert out left. induction n as [|n IH]; intros out left.
  - reflexivity.
  - change (copy_run heap (S (S n)) offset out left)
      with (copy_run heap (S n) offset (out ++ [peek heap out offset])
              (sint32 (left - 1))).
    rewrite IH, sint32_sub. f_equal. lia.
Qed.

(** Overlapping runs replicate: with the source inside the bytes already
    written, byte [i] of the run equals the byte [offset] places before it
    in the result. *)
Lemma copy_run_replicates (n : nat) (offset : Z) (out : list byte) (left : Z) :
  1 <= offset <= Z.of_nat (length out) ->
  let out' := fst (copy_run heap n offset out left) in
  length out' = (length out + n)%nat
  /\ firstn (length out) out' = out
  /\ forall i, (i < n)%nat ->
       nth (length out + i) out' x00
       = nth (length out + i - Z.to_nat offset) out' x00.
Proof.
  intros R out'. subst out'.
  destruct (copy_run_bytes n offset out left) as (ext & E & L & P).
  rewrite E. repeat split.
  - rewrite length_app. lia.
  - rewrite firstn_app, Nat.sub_diag, firstn_all. simpl. apply app_nil_r.
  - intros i Li.
    rewrite app_nth2_plus, (P i Li).
    rewrite peek_inside by (rewrite length_app; lia).
    rewrite length_app, length_firstn, Nat.min_l by lia.
    replace (out ++ ext) with ((out ++ firstn i ext) ++ skipn i ext)
      by (rewrite <- app_assoc, firstn_skipn; reflexivity).
    symmetry. apply app_nth1.
    rewrite length_app, length_firstn, Nat.min_l by lia. lia.
Qed.

Lemma copy_run_step (n : nat) (offset : Z) (out : list byte) (left : Z) :
  copy_run heap (S n) offset out left
  = copy_run heap n offset (out ++ [peek heap out offset]) (sint32 (left - 1)).
Proof. reflexivity. Qed.

Lemma copy_run_three_last (out : list byte) (x : byte) (left : Z) :
  copy_run heap 3 1 (out ++ [x]) left
  = (out ++ [x] ++ [x; x; x], sint32 (left - 3)).
Proof.
  rewrite copy_run_step, peek_last.
  rewrite copy_run_step, peek_last.
  rewrite copy_run_step, peek_last.
  cbn [copy_run]. rewrite !sint32_sub, <- !app_assoc. cbn [app].
  f_equal.
  replace (sint32 (left - 1) - 1 - 1) with (sint32 (left - 1) - 2) by ring.
  rewrite sint32_sub. f_equal. ring.
Qed.


Lemma do_bit_rest (c : byte) (b : Z) (s : dstate) :
  (length (f_rest (d_in (flow_state (do_bit heap c b s))))
   <= length (f_rest (d_in s)))%nat.
Proof.
  unfold do_bit.
  destruct (negb (Z.land (u8 c) (Z.shiftl 1 b) =? 0)).
  - pose proof (mtf_read8_rest (d_in s)) as L.
    destruct (mtf_read8 (d_in s)) as [[x|] f']; simpl; lia.
  - pose proof (mtf_read16_rest (d_in s)) as L.
    destruct (mtf_read16 (d_in s)) as [[w|] f']; simpl in *; [|lia].
    destruct (w =? 0); simpl; [lia|].
    destruct (copy_run heap _ _ _ _) as [out' left'].
    destruct (left' <? 0); simpl; lia.
Qed.

Lemma for_bits_rest (n : nat) (b : Z) (c : byte) (s : dstate) :
  (length (f_rest (d_in (flow_state (for_bits heap n b c s))))
   <= length (f_rest (d_in s)))%nat.
Proof.
  revert b s. induction n as [|n IH]; intros b s; simpl; [lia|].
  pose proof (do_bit_rest c b s) as L.
  destruct (do_bit heap c b s) as [s'|s'|m s']; simpl in *; try lia.
  specialize (IH (b + 1) s'). lia.
Qed.

(** The loop returns: the unread bytes bound the number of rounds. *)
Lemma while_bytesLeft_total (fuel : nat) (s : dstate) :
  (length (f_rest (d_in s)) < fuel)%nat ->
  exists r, while_bytesLeft heap fuel s = Some r.
Proof.
  revert s. induction fuel as [|fuel IH]; intros s L; [lia|].
  cbn [while_bytesLeft]. destruct (bytesLeft s =? 0); [eauto|].
  pose proof (mtf_read8_rest (d_in s)) as L8.
  destruct (mtf_read8 (d_in s)) as [[c|] f']; [|eauto].
  pose proof (for_bits_rest 8 0 c (mkD f' (d_out s) (bytesLeft s))) as Lb.
  destruct (for_bits heap 8 0 c _) as [s'|s'|m s']; simpl in Lb;
    try (apply IH; lia); eauto.
Qed.

Lemma while_bytesLeft_more (fuel k : nat) (s : dstate) r :
  while_bytesLeft heap fuel s = Some r ->
  while_bytesLeft heap (fuel + k) s = Some r.
Proof.
  revert s. induction fuel as [|fuel IH]; intros s.
  - simpl. destruct (bytesLeft s =? 0) eqn:Z0; [|discriminate].
    intros E. destruct k; simpl; now rewrite Z0.
  - cbn [while_bytesLeft Nat.add]. destruct (bytesLeft s =? 0); [trivial|].
    destruct (mtf_read8 (d_in s)) as [[c|] f']; [|trivial].
    destruct (for_bits heap 8 0 c _) as [s'|s'|m s']; auto.
Qed.

Lemma mtf_decode_eq (f : FILE_in) (size : Z) (fuel : nat) r :
  while_bytesLeft heap fuel (mkD f [] (sint32 size)) = Some r ->
  mtf_decode heap f size = r.
Proof.
  intros E. unfold mtf_decode.
  destruct (while_bytesLeft_total (S (length (f_rest f)))
              (mkD f [] (sint32 size))) as [r' E']; [simpl; lia|].
  rewrite E'.
  apply (while_bytesLeft_more _ (S (length (f_rest f)))) in E.
  apply (while_bytesLeft_more _ fuel) in E'.
  rewrite Nat.add_comm in E'. congruence.
Qed.

Lemma buffer_bytes_exact (out : list byte) :
  buffer_bytes heap (length out) out = out.
Proof.
  unfold buffer_bytes.
  set (g := fun i => if (i <? length out)%nat then nth i out x00
                     else heap (Z.of_nat i)).
  apply nth_ext with (d := g O) (d' := x00).
  - now rewrite length_map, length_seq.
  - intros i Li. rewrite length_map, length_seq in Li.
    rewrite map_nth, seq_nth by exact Li. simpl. unfold g.
    apply Nat.ltb_lt in Li. now rewrite Li.
Qed.

Lemma buffer_bytes_length (n : nat) (out : list byte) :
  length (buffer_bytes heap n out) = n.
Proof.
  unfold buffer_bytes. now rewrite length_map, length_seq.
Qed.

End DecompressorFacts.

Section LiteralStreams.

Variable heap : Z -> byte.

Lemma iter_decrement (n : nat) (l : Z) :
  Nat.iter (S n) (fun l => sint32 (l - 1)) l = sint32 (l - Z.of_nat (S n)).
Proof.
  induction n as [|n IH].
  - reflexivity.
  - rewrite Nat.iter_succ, IH, sint32_sub. f_equal. lia.
Qed.

Lemma for_bits_literals (n : nat) (b : Z) (c : byte) (s : dstate)
    (lits r : list byte) :
  0 <= b -> b + Z.of_nat n <= 8 ->
  (forall i, b <= i < b + Z.of_nat n -> Z.testbit (u8 c) i = true) ->
  length lits = n ->
  f_rest (d_in s) = lits ++ r ->
  exists f',
    for_bits heap n b c s
    = Next (mkD f' (d_out s ++ lits)
              (Nat.iter n (fun l => sint32 (l - 1)) (bytesLeft s)))
    /\ f_rest f' = r.
Proof.
  revert b s lits. induction n as [|n IH]; intros b s lits B0 B8 T L E.
  - destruct lits; [|discriminate]. exists (d_in s).
    destruct s; simpl in *. now rewrite app_nil_r.
  - destruct lits as [|x lits]; [discriminate|].
    cbn [for_bits].
    rewrite (do_bit_literal heap c b s x (lits ++ r)) by (auto; try apply T; lia).
    destruct (IH (b + 1)
                (mkD (advance 1 (d_in s)) (d_out s ++ [x])
                   (sint32 (bytesLeft s - 1))) lits) as (f' & E' & R').
    + lia.
    + lia.
    + intros i Ri. apply T. lia.
    + simpl in L. lia.
    + simpl. now rewrite f_rest_advance, E.
    + exists f'. split; [|exact R'].
      rewrite E'. cbn [d_out bytesLeft]. rewrite <- app_assoc.
      now rewrite Nat.iter_succ_r.
Qed.

Lemma literal_chunks_decode (k : nat) :
  forall (lits out tail : list byte) (f : FILE_in) (fuel : nat),
    length lits = (8 * k)%nat ->
    Z.of_nat (8 * k) < 2 ^ 32 ->
    (k <= fuel)%nat ->
    f_rest f = literal_chunks k lits ++ tail ->
    exists f',
      while_bytesLeft heap fuel (mkD f out (sint32 (Z.of_nat (8 * k))))
      = Some (None, mkD f' (out ++ lits) 0)
      /\ f_rest f' = tail.
Proof.
  induction k as [|k IH]; intros lits out tail f fuel L B F E.
  - destruct lits; [|discriminate]. exists f.
    destruct fuel; simpl; rewrite app_nil_r; auto.
  - destruct fuel as [|fuel]; [lia|].
    cbn [while_bytesLeft bytesLeft].
    destruct (sint32 (Z.of_nat (8 * S k)) =? 0) eqn:Z0.
    { apply Z.eqb_eq in Z0. apply sint32_pos_nonzero in Z0; [easy | lia]. }
    cbn [literal_chunks] in E. rewrite <- app_comm_cons in E.
    cbn [d_in d_out].
    rewrite (mtf_read8_cons f xff _ E).
    destruct (for_bits_literals 8 0 xff
                (mkD (advance 1 f) out (sint32 (Z.of_nat (8 * S k))))
                (firstn 8 lits)
                (literal_chunks k (skipn 8 lits) ++ tail))
      as (f1 & E1 & R1).
    + lia.
    + lia.
    + intros i Ri.
      assert (C : i = 0 \/ i = 1 \/ i = 2 \/ i = 3 \/ i = 4 \/ i = 5 \/ i = 6
                  \/ i = 7) by lia.
      destruct C as [-> | [-> | [-> | [-> | [-> | [-> | [-> | ->]]]]]]];
        reflexivity.
    + rewrite length_firstn. lia.
    + simpl. rewrite f_rest_advance, E. simpl. now rewrite <- app_assoc.
    + rewrite E1. cbn [d_out bytesLeft].
      rewrite iter_decrement, sint32_sub.
      replace (Z.of_nat (8 * S k) - Z.of_nat 8) with (Z.of_nat (8 * k)) by lia.
      destruct (IH (skipn 8 lits) (out ++ firstn 8 lits) tail f1 fuel)
        as (f' & E' & R').
      * rewrite length_skipn. lia.
      * lia.
      * lia.
      * exact R1.
      * exists f'. split; [|exact R'].
        rewrite E'. now rewrite <- app_assoc, firstn_skipn.
Qed.

Lemma literal_chunks_length (k : nat) (lits : list byte) :
  length lits = (8 * k)%nat -> length (literal_chunks k lits) = (9 * k)%nat.
Proof.
  revert lits. induction k as [|k IH]; intros lits L; [reflexivity|].
  cbn [literal_chunks length].
  rewrite length_app, length_firstn, IH by (rewrite length_skipn; lia). lia.
Qed.

(** A stream of set-bit chunks decodes to its literal bytes. *)
Lemma mtf_decode_literals (k : nat) (lits tail : list byte) (f : FILE_in) :
  length lits = (8 * k)%nat ->
  Z.of_nat (8 * k) < 2 ^ 32 ->
  f_rest f = literal_chunks k lits ++ tail ->
  exists f',
    mtf_decode heap f (Z.of_nat (8 * k)) = (None, mkD f' lits 0)
    /\ f_rest f' = tail.
Proof.
  intros L B E.
  destruct (literal_chunks_decode k lits [] tail f k L B (le_n k) E)
    as (f' & E' & R').
  exists f'. split; [|exact R'].
  now apply (mtf_decode_eq heap f _ k).
Qed.

End LiteralStreams.

Section DecompressorClaims.

Variable heap : Z -> byte.

Lemma then_bit_stuck (c : byte) (bs : list Z) (r : flow) :
  (forall s, r <> Next s) -> fold_left (then_bit heap c) bs r = r.
Proof.
  intros N. induction bs as [|b bs IH]; [reflexivity|].
  simpl. destruct r as [s| |]; [now destruct (N s)| |]; exact IH.
Qed.

Lemma for_bits_fold (n : nat) (b : Z) (c : byte) (s : dstate) :
  for_bits heap n b c s
  = fold_left (then_bit heap c) (map (fun i => b + Z.of_nat i) (seq 0 n))
      (Next s).
Proof.
  revert b s. induction n as [|n IH]; intros b s; [reflexivity|].
  cbn [for_bits seq map fold_left then_bit].
  rewrite Z.add_0_r, <- seq_shift, map_map.
  destruct (do_bit heap c b s) as [s'|s'|m s'] eqn:D.
  - rewrite IH. f_equal. apply map_ext. intros i. lia.
  - now rewrite then_bit_stuck.
  - now rewrite then_bit_stuck.
Qed.

Lemma while_bytesLeft_step (fuel : nat) (s : dstate) (c : byte) (r : list byte) :
  bytesLeft s <> 0 -> f_rest (d_in s) = c :: r ->
  while_bytesLeft heap (S fuel) s
  = match for_bits heap 8 0 c (mkD (advance 1 (d_in s)) (d_out s) (bytesLeft s)) with
    | Next s' | Break s' => while_bytesLeft heap fuel s'
    | Bail m s' => Some (Some m, s')
    end.
Proof.
  intros N E. cbn [while_bytesLeft].
  apply Z.eqb_neq in N. rewrite N.
  now rewrite (mtf_read8_cons _ c r E).
Qed.

Lemma word_count_range (lo hi : byte) :
  0 <= Z.shiftr (u8 lo + 256 * u8 hi) 10 < 64
  /\ 0 <= Z.land (u8 lo + 256 * u8 hi) 1023 < 1024.
Proof.
  pose proof (u8_range lo). pose proof (u8_range hi).
  rewrite Z.shiftr_div_pow2 by lia.
  change 1023 with (Z.ones 10). rewrite Z.land_ones by lia.
  split.
  - split; [apply Z.div_pos; lia | apply Z.div_lt_upper_bound; lia].
  - apply Z.mod_pos_bound. lia.
Qed.

(** A back-reference: [count + 3] bytes are appended, one at a time, each
    read [offset] places behind the cursor of that moment, the counter
    drops by as many, and only then is its sign checked. *)
Lemma do_bit_backref (c : byte) (b : Z) (s : dstate) (lo hi : byte)
    (r : list byte) :
  0 <= b < 8 -> Z.testbit (u8 c) b = false ->
  f_rest (d_in s) = lo :: hi :: r ->
  u8 lo + 256 * u8 hi <> 0 ->
  let word := u8 lo + 256 * u8 hi in
  let count := Z.shiftr word 10 in
  let offset := Z.land word 1023 in
  exists ext,
    let s' := mkD (advance 2 (d_in s)) (d_out s ++ ext)
                (sint32 (bytesLeft s - (count + 3))) in
    do_bit heap c b s
    = (if bytesLeft s' <? 0 then Bail MsgSizeMismatch s' else Next s')
    /\ Z.of_nat (length ext) = count + 3
    /\ (forall i, (i < length ext)%nat ->
          nth i ext x00 = peek heap (d_out s ++ firstn i ext) offset).
Proof.
  intros R T E W word count offset.
  rewrite (do_bit_word heap c b s lo hi r R T E). cbv zeta.
  apply Z.eqb_neq in W. rewrite W.
  fold word. fold count. fold offset.
  destruct (word_count_range lo hi) as [Rc _]. fold word in Rc. fold count in Rc.
  destruct (copy_run_bytes heap (Z.to_nat (count + 3)) offset (d_out s)
              (bytesLeft s)) as (ext & Ex & Lx & Px).
  pose proof (copy_run_left heap (Z.to_nat (count + 2)) offset (d_out s)
                (bytesLeft s)) as Lf.
  replace (S (Z.to_nat (count + 2))) with (Z.to_nat (count + 3)) in Lf by lia.
  destruct (copy_run heap (Z.to_nat (count + 3)) offset (d_out s) (bytesLeft s))
    as [out' left'].
  simpl in Ex, Lf. subst out' left'.
  exists ext. cbn [bytesLeft].
  replace (Z.of_nat (Z.to_nat (count + 3))) with (count + 3) by lia.
  split; [reflexivity|]. split; [lia|].
  intros i Li. apply Px. lia.
Qed.

End DecompressorClaims.

(** C2: after the compression header the decoder reads one control byte
    per round and takes its eight bits from the least significant to the
    most significant.  A set bit appends one literal byte read from the
    input and lowers the counter by one.  A clear bit reads a 16-bit
    little-endian word; a non-zero word appends [count + 3] bytes
    ([count = word >> 10], [offset = word & 0x3FF]), copied one at a time,
    each read [offset] places behind the write cursor of that moment, so
    that a run overlapping its source replicates it.  In particular the
    word [count = 0, offset = 1] after a last byte [0x41] appends exactly
    three bytes [0x41], and a stream made of set-bit chunks only decodes
    to its literal bytes. *)
Theorem chunk_bitmask_decoding (heap : Z -> byte) :
  (forall fuel s c r,
      bytesLeft s <> 0 -> f_rest (d_in s) = c :: r ->
      while_bytesLeft heap (S fuel) s
      = match for_bits heap 8 0 c
                (mkD (advance 1 (d_in s)) (d_out s) (bytesLeft s)) with
        | Next s' | Break s' => while_bytesLeft heap fuel s'
        | Bail m s' => Some (Some m, s')
        end)
  /\ (forall c s,
         for_bits heap 8 0 c s
         = fold_left (then_bit heap c) [0; 1; 2; 3; 4; 5; 6; 7] (Next s))
  /\ (forall c b s x r,
         0 <= b < 8 -> Z.testbit (u8 c) b = true ->
         f_rest (d_in s) = x :: r ->
         do_bit heap c b s
         = Next (mkD (advance 1 (d_in s)) (d_out s ++ [x])
                   (sint32 (bytesLeft s - 1))))
  /\ (forall c b s lo hi r,
         0 <= b < 8 -> Z.testbit (u8 c) b = false ->
         f_rest (d_in s) = lo :: hi :: r ->
         u8 lo + 256 * u8 hi <> 0 ->
         let word := u8 lo + 256 * u8 hi in
         let count := Z.shiftr word 10 in
         let offset := Z.land word 1023 in
         exists ext,
           let s' := mkD (advance 2 (d_in s)) (d_out s ++ ext)
                       (sint32 (bytesLeft s - (count + 3))) in
           do_bit heap c b s
           = (if bytesLeft s' <? 0 then Bail MsgSizeMismatch s' else Next s')
           /\ Z.of_nat (length ext) = count + 3
           /\ (forall i, (i < length ext)%nat ->
                 nth i ext x00 = peek heap (d_out s ++ firstn i ext) offset))
  /\ (forall n offset out left,
         1 <= offset <= Z.of_nat (length out) ->
         let out' := fst (copy_run heap n offset out left) in
         length out' = (length out + n)%nat
         /\ firstn (length out) out' = out
         /\ forall i, (i < n)%nat ->
              nth (length out + i) out' x00
              = nth (length out + i - Z.to_nat offset) out' x00)
  /\ (forall c b s out r,
         0 <= b < 8 -> Z.testbit (u8 c) b = false ->
         d_out s = out ++ [x41] ->
         f_rest (d_in s) = x01 :: x00 :: r ->
         d_out (flow_state (do_bit heap c b s))
         = (out ++ [x41]) ++ [x41; x41; x41])
  /\ (forall k lits tail f,
         length lits = (8 * k)%nat ->
         Z.of_nat (8 * k) < 2 ^ 32 ->
         f_rest f = literal_chunks k lits ++ tail ->
         exists f',
           mtf_decode heap f (Z.of_nat (8 * k)) = (None, mkD f' lits 0)
           /\ f_rest f' = tail).
Proof.
  split; [exact (while_bytesLeft_step heap)|].
  split; [intros c s; apply (for_bits_fold heap 8 0 c s)|].
  split; [exact (do_bit_literal heap)|].
  split; [exact (do_bit_backref heap)|].
  split; [exact (copy_run_replicates heap)|].
  split; [|exact (mtf_decode_literals heap)].
  intros c b s out r R T O E.
  rewrite (do_bit_word heap c b s x01 x00 r R T E). cbv zeta.
  change (u8 x01 + 256 * u8 x00) with 1.
  change (1 =? 0) with false. cbv iota.
  change (Z.to_nat (Z.shiftr 1 10 + 3)) with 3%nat.
  change (Z.land 1 1023) with 1.
  rewrite O, copy_run_three_last.
  destruct (sint32 (bytesLeft s - 3) <? 0); simpl; now rewrite <- app_assoc.
Qed.

Lemma chunk_bitmask_decoding_witness :
  (exists f',
      mtf_decode heap0
        (file_of (literal_chunks 1 [x41; x42; x43; x44; x45; x46; x47; x48]))
        (Z.of_nat (8 * 1))
      = (None, mkD f' [x41; x42; x43; x44; x45; x46; x47; x48] 0)
      /\ f_rest f' = [])
  /\ d_out (flow_state
              (do_bit heap0 x00 0 (mkD (file_of [x01; x00]) ([] ++ [x41]) 3)))
     = ([] ++ [x41]) ++ [x41; x41; x41]
  /\ do_bit heap0 x01 0 (mkD (file_of [x41]) [] 1)
     = Next (mkD (advance 1 (file_of [x41])) ([] ++ [x41]) (sint32 (1 - 1)))
  /\ while_bytesLeft heap0 1 (mkD (file_of [x01; x41]) [] 1)
     = match for_bits heap0 8 0 x01
               (mkD (advance 1 (file_of [x01; x41])) [] 1) with
       | Next s' | Break s' => while_bytesLeft heap0 0 s'
       | Bail m s' => Some (Some m, s')
       end
  /\ (exists ext,
         do_bit heap0 x00 0 (mkD (file_of [x02; x04]) [x41; x42] 9)
         = Next (mkD (advance 2 (file_of [x02; x04])) ([x41; x42] ++ ext) 5)
         /\ length ext = 4%nat)
  /\ nth (2 + 3) (fst (copy_run heap0 4 2 [x41; x42] 9)) x00
     = nth (2 + 3 - 2) (fst (copy_run heap0 4 2 [x41; x42] 9)) x00.
Proof.
  pose proof (chunk_bitmask_decoding heap0)
    as (Hstep & _ & Hlit & Hback & Hrep & Hrun & Hall).
  split; [|split; [|split; [|split; [|split]]]].
  - apply (Hall 1%nat [x41; x42; x43; x44; x45; x46; x47; x48] []);
      reflexivity.
  - apply (Hrun x00 0 (mkD (file_of [x01; x00]) ([] ++ [x41]) 3) [] []);
      [lia | reflexivity | reflexivity | reflexivity].
  - apply (Hlit x01 0 (mkD (file_of [x41]) [] 1) x41 []);
      [lia | reflexivity | reflexivity].
  - apply (Hstep 0%nat (mkD (file_of [x01; x41]) [] 1) x01 [x41]);
      [discriminate | reflexivity].
  - destruct (Hback x00 0 (mkD (file_of [x02; x04]) [x41; x42] 9) x02 x04 [])
      as (ext & D & L & _);
      [lia | reflexivity | reflexivity | vm_compute; discriminate |].
    exists ext. split; [exact D|].
    apply Nat2Z.inj. rewrite L. reflexivity.
  - apply (proj2 (proj2 (Hrep 4%nat 2 [x41; x42] 9 ltac:(vm_compute; split; discriminate)))
             3%nat).
    lia.
Defined.

(** Sibling paths of the size check: a back-reference that takes the
    counter below zero is reported, a literal byte that does so is not. *)
Lemma backref_overrun_reported (heap : Z -> byte) (c : byte) (b : Z)
    (s : dstate) (lo hi : byte) (r : list byte) :
  0 <= b < 8 -> Z.testbit (u8 c) b = false ->
  f_rest (d_in s) = lo :: hi :: r ->
  u8 lo + 256 * u8 hi <> 0 ->
  0 <= bytesLeft s < Z.shiftr (u8 lo + 256 * u8 hi) 10 + 3 ->
  exists s', do_bit heap c b s = Bail MsgSizeMismatch s'.
Proof.
  intros R T E W L.
  destruct (do_bit_backref heap c b s lo hi r R T E W) as (ext & D & _).
  cbv zeta in D. cbn [bytesLeft] in D.
  destruct (word_count_range lo hi) as [Rc _].
  rewrite sint32_small in D by lia.
  replace (_ <? 0) with true in D by (symmetry; apply Z.ltb_lt; lia).
  eauto.
Qed.

Lemma literal_overrun_goes_on (heap : Z -> byte) (c : byte) (b : Z)
    (s : dstate) (x : byte) (r : list byte) :
  0 <= b < 8 -> Z.testbit (u8 c) b = true ->
  f_rest (d_in s) = x :: r ->
  bytesLeft s = 0 ->
  do_bit heap c b s = Next (mkD (advance 1 (d_in s)) (d_out s ++ [x]) (-1)).
Proof.
  intros R T E L. rewrite (do_bit_literal heap c b s x r R T E), L.
  reflexivity.
Qed.

(** Whatever the decoder hands to [fwrite] has the declared size. *)
Lemma decompress_writes_declared_size (heap : Z -> byte) (FS : Type)
    (H : FileSystem FS) (fs fs' : FS) (fileOut : path) (f f' : FILE_in)
    (size : Z) :
  mtf_decompress_write_file heap fs fileOut f size = (Success, fs', f') ->
  exists bytes,
    length bytes = Z.to_nat size
    /\ fs_fwrite fs fileOut bytes = (fs', Z.to_nat size).
Proof.
  unfold mtf_decompress_write_file.
  destruct (mtf_decode heap f size) as [[m|] s]; [discriminate|].
  destruct (fs_fwrite fs fileOut (buffer_bytes heap (Z.to_nat size) (d_out s)))
    as [fs1 written] eqn:W.
  destruct (written =? Z.to_nat size)%nat eqn:C; [|discriminate].
  intros E. inversion E; subst. apply Nat.eqb_eq in C. subst written.
  exists (buffer_bytes heap (Z.to_nat size) (d_out s)).
  split; [apply buffer_bytes_length | exact W].
Qed.

(** C1: at declared size 1, the stream [03 41 42] stores a second literal
    byte behind the one-byte buffer with the counter at -1, nothing checks
    it, and the entry fails on the next read with the read message (an I/O
    error); two full chunks of literals go sixteen bytes into the one-byte
    buffer the same way.  The same overrun by a back-reference, stream
    [01 41 01 00], is caught by the size check. *)
Theorem literal_overrun_unchecked (heap : Z -> byte) :
  mtf_decode heap (file_of [x03; x41; x42]) 1
  = (Some MsgRead16, mkD (advance 3 (file_of [x03; x41; x42])) [x41; x42] (-1))
  /\ kind_of MsgRead16 = IoError
  /\ (let lits := [x41; x42; x43; x44; x45; x46; x47; x48;
                   x49; x4a; x4b; x4c; x4d; x4e; x4f; x50] in
      let r := mtf_decode heap (file_of (literal_chunks 2 lits)) 1 in
      fst r = Some MsgRead8 /\ d_out (snd r) = lits
      /\ bytesLeft (snd r) = -15)
  /\ fst (mtf_decode heap (file_of [x01; x41; x01; x00]) 1)
     = Some MsgSizeMismatch
  /\ kind_of MsgSizeMismatch = FormatError.
Proof.
  repeat split.
Qed.

(** The zero control word in the middle of a block: at declared size 2
    the stream [01 41 | 00 00 | 01 42 | 00 00] meets a zero word with one
    byte still outstanding, and decoding goes on to success. *)
Lemma zero_word_mid_block_accepted :
  let f := file_of [x01; x41; x00; x00; x01; x42; x00; x00] in
  for_bits heap0 8 0 x01 (mkD (advance 1 f) [] 2)
  = Break (mkD (advance 4 f) [x41] 1)
  /\ mtf_decode heap0 f 2 = (None, mkD (advance 8 f) [x41; x42] 0)
  /\ fst (fst (mtf_decompress_write_file heap0
                 (Toy.mkFs [([x6f], Toy.File [])] 16) [x6f] f 2))
     = Success.
Proof.
  repeat split.
Qed.

(** C4 (amended): a zero control word ends the bit loop of the current
    control byte at once, with output and counter unchanged, and control
    falls through to the test of the counter: at zero the loop is left
    without error, otherwise decoding goes on, silently, with the next
    control byte. *)
Theorem zero_word_ends_chunk (heap : Z -> byte) (c : byte) (b : Z)
    (s : dstate) (r : list byte) :
  0 <= b < 8 -> Z.testbit (u8 c) b = false ->
  f_rest (d_in s) = x00 :: x00 :: r ->
  let s' := mkD (advance 2 (d_in s)) (d_out s) (bytesLeft s) in
  do_bit heap c b s = Break s'
  /\ (forall n, for_bits heap (S n) b c s = Break s')
  /\ (forall fuel s0 c0 r0,
         bytesLeft s0 <> 0 -> f_rest (d_in s0) = c0 :: r0 ->
         for_bits heap 8 0 c0 (mkD (advance 1 (d_in s0)) (d_out s0) (bytesLeft s0))
         = Break s' ->
         while_bytesLeft heap (S fuel) s0 = while_bytesLeft heap fuel s')
  /\ (bytesLeft s = 0 ->
      forall fuel, while_bytesLeft heap fuel s' = Some (None, s'))
  /\ (bytesLeft s <> 0 ->
      forall fuel c1 r1, r = c1 :: r1 ->
        while_bytesLeft heap (S fuel) s'
        = match for_bits heap 8 0 c1
                  (mkD (advance 1 (d_in s')) (d_out s) (bytesLeft s)) with
          | Next s2 | Break s2 => while_bytesLeft heap fuel s2
          | Bail m s2 => Some (Some m, s2)
          end).
Proof.
  intros R T E s'.
  assert (D : do_bit heap c b s = Break s').
  { rewrite (do_bit_word heap c b s x00 x00 r R T E). reflexivity. }
  split; [exact D|].
  split; [intros n; cbn [for_bits]; now rewrite D|].
  split.
  { intros fuel s0 c0 r0 N0 E0 B.
    rewrite (while_bytesLeft_step heap fuel s0 c0 r0 N0 E0). now rewrite B. }
  split.
  { intros Z0 fuel. destruct fuel; simpl; rewrite Z0; reflexivity. }
  intros N fuel c1 r1 Er.
  apply (while_bytesLeft_step heap fuel s' c1 r1 N).
  subst s'. simpl. rewrite f_rest_advance, E, Er. reflexivity.
Qed.

Lemma zero_word_ends_chunk_witness :
  let s := mkD (file_of [x00; x00; x01; x42; x00; x00]) [x41] 1 in
  let s' := mkD (advance 2 (d_in s)) (d_out s) (bytesLeft s) in
  do_bit heap0 x01 1 s = Break s'
  /\ while_bytesLeft heap0 3 s'
     = match for_bits heap0 8 0 x01
               (mkD (advance 1 (d_in s')) (d_out s) (bytesLeft s)) with
       | Next s2 | Break s2 => while_bytesLeft heap0 2 s2
       | Bail m s2 => Some (Some m, s2)
       end.
Proof.
  intros s s'.
  pose proof (zero_word_ends_chunk heap0 x01 1 s [x01; x42; x00; x00])
    as W.
  destruct W as (D & _ & _ & _ & G).
  - lia.
  - reflexivity.
  - reflexivity.
  - split; [exact D|].
    apply (G ltac:(discriminate) 2%nat x01 [x42; x00; x00]). reflexivity.
Defined.

(** ** Closing the archive handle *)

(** A handle whose entry table is [NULL] keeps its entry count: seven
    stays seven, and [mtf_file_open] leaves such a handle behind when a
    one-byte archive [05] ends inside the entry count. *)
Lemma close_keeps_stale_count :
  (exists m',
      fst (mtf_file_close (Some (mkMtf None None 7))) = Some m'
      /\ fileEntryCount m' <> 0)
  /\ mtf_file_open (Some (file_of [x05]))
     = (Failure MsgEntryCount, mkMtf None None 5, [Fclose])
  /\ mtf_file_close (Some (mkMtf None None 5)) = (Some (mkMtf None None 5), []).
Proof.
  split; [|split; reflexivity].
  exists (mkMtf None None 7). split; [reflexivity | discriminate].
Qed.

Lemma mtf_file_open_failed_closed (opened : option FILE_in) (m : mtf_msg)
    (mtf : mtf_file_t) (freed : list release) :
  mtf_file_open opened = (Failure m, mtf, freed) ->
  osFileHandle mtf = None /\ fileEntries mtf = None.
Proof.
  unfold mtf_file_open. destruct opened as [f|].
  - destruct (mtf_read32 f 0) as [[ok count] f1].
    destruct (negb ok); [intros E; inversion E; auto|].
    destruct (count =? 0); [intros E; inversion E; auto|].
    destruct (read_entries (Z.to_nat count) f1 []) as [[[|m'] entries] f2];
      intros E; inversion E; auto.
  - intros E. inversion E. auto.
Qed.

(** C10 (amended): [mtf_file_close] is total; on a [NULL] pointer it does
    nothing; after any call the file handle and the entry table are
    [NULL], and the entry count is 0 whenever the table was not [NULL]
    before (it is left as it was otherwise); a second call on the same
    handle, or a call after a failed [mtf_file_open], changes nothing and
    releases nothing. *)
Theorem mtf_file_close_idempotent :
  mtf_file_close None = (None, [])
  /\ (forall m, exists m' freed,
         mtf_file_close (Some m) = (Some m', freed)
         /\ osFileHandle m' = None
         /\ fileEntries m' = None
         /\ fileEntryCount m'
            = match fileEntries m with
              | Some _ => 0
              | None => fileEntryCount m
              end
         /\ mtf_file_close (Some m') = (Some m', []))
  /\ (forall opened msg m freed,
         mtf_file_open opened = (Failure msg, m, freed) ->
         mtf_file_close (Some m) = (Some m, [])).
Proof.
  split; [reflexivity|]. split.
  - intros [h [es|] n]; simpl; eexists; eexists; repeat split.
  - intros opened msg m freed E.
    destruct (mtf_file_open_failed_closed opened msg m freed E) as [Eh Ee].
    destruct m as [h es n]. simpl in Eh, Ee. subst. reflexivity.
Qed.

Lemma mtf_file_close_idempotent_witness :
  mtf_file_close (Some (mkMtf None None 0)) = (Some (mkMtf None None 0), []).
Proof.
  apply (proj2 (proj2 mtf_file_close_idempotent)
           (Some (file_of [x00; x00; x00; x00])) MsgNoFiles
           (mkMtf None None 0) [Fclose]).
  reflexivity.
Defined.

(** ** Compressed or raw *)

Lemma mtf_is_compressed_iff (h : mtf_compressed_header_t) :
  mtf_is_compressed h = true
  <-> (magic1 h = xae \/ magic1 h = xaf) /\ magic2 h = xbe.
Proof.
  unfold mtf_is_compressed.
  destruct (Byte.eqb (magic1 h) xae) eqn:A, (Byte.eqb (magic1 h) xaf) eqn:B,
    (Byte.eqb (magic2 h) xbe) eqn:C; simpl;
    rewrite ?byte_eqb_eq, ?byte_eqb_neq in *; intuition congruence.
Qed.

Lemma f_rest_fseek (offset : Z) (f : FILE_in) :
  f_rest (fseek offset f) = skipn (Z.to_nat offset) (f_data f).
Proof. reflexivity. Qed.

Section RawCopyFacts.

Context {FS : Type} `{FileSystem FS}.

(** The raw copy succeeds exactly when the archive holds the bytes and the
    output takes them all, and what it writes are the bytes at
    [readOffset]. *)
Lemma mtf_write_file_spec (fs : FS) (fileOut : path) (f : FILE_in)
    (size offset : Z) :
  let bytes := firstn (Z.to_nat size) (skipn (Z.to_nat offset) (f_data f)) in
  let r := mtf_write_file fs fileOut f size offset in
  (fst (fst r) = Success
   <-> length bytes = Z.to_nat size
       /\ snd (fs_fwrite fs fileOut bytes) = Z.to_nat size)
  /\ (fst (fst r) = Success -> snd (fst r) = fst (fs_fwrite fs fileOut bytes)).
Proof.
  intros bytes r. subst r. unfold mtf_write_file, fread.
  rewrite f_rest_fseek. fold bytes.
  destruct (length bytes =? Z.to_nat size)%nat eqn:L; simpl.
  - apply Nat.eqb_eq in L.
    destruct (fs_fwrite fs fileOut bytes) as [fs' w]. simpl.
    destruct (w =? Z.to_nat size)%nat eqn:W; simpl.
    + apply Nat.eqb_eq in W. tauto.
    + apply Nat.eqb_neq in W. intuition (try discriminate; try congruence).
  - apply Nat.eqb_neq in L. intuition (try discriminate; try congruence).
Qed.

End RawCopyFacts.

(** ** The small file system *)

Lemma toy_path_eqb_refl (p : path) : Toy.path_eqb p p = true.
Proof.
  induction p as [|c p IH]; [reflexivity|].
  simpl. rewrite IH. now rewrite (proj2 (byte_eqb_eq c c) eq_refl).
Qed.

Lemma toy_path_eqb_eq (p q : path) : Toy.path_eqb p q = true -> p = q.
Proof.
  revert q. induction p as [|a p IH]; intros [|b q]; simpl; try easy.
  intros E. apply andb_prop in E. destruct E as [E1 E2].
  apply byte_eqb_eq in E1. now rewrite E1, (IH q E2).
Qed.

Lemma toy_lookup_store (p q : path) (n : Toy.node) (l : list (path * Toy.node)) :
  Toy.lookup q (Toy.store p n l)
  = if Toy.path_eqb q p then Some n else Toy.lookup q l.
Proof.
  induction l as [|[r m] l IH]; simpl.
  - reflexivity.
  - destruct (Toy.path_eqb p r) eqn:Epr; simpl.
    + apply toy_path_eqb_eq in Epr. subst r.
      now destruct (Toy.path_eqb q p).
    + destruct (Toy.path_eqb q r) eqn:Eqr; [|exact IH].
      apply toy_path_eqb_eq in Eqr. subst r.
      destruct (Toy.path_eqb q p) eqn:Eqp; [|reflexivity].
      apply toy_path_eqb_eq in Eqp. subst q.
      now rewrite toy_path_eqb_refl in Epr.
Qed.

(** A file opened for writing and then written in full holds exactly the
    bytes written. *)
Lemma toy_written_file (t t2 t3 : Toy.fs) (p : path) (bytes : list byte) :
  Toy.fopen_wb t p = Some t2 ->
  Toy.fwrite t2 p bytes = (t3, length bytes) ->
  Toy.lookup p (Toy.nodes t3) = Some (Toy.File bytes).
Proof.
  unfold Toy.fopen_wb, Toy.fwrite. intros O W.
  assert (L : Toy.lookup p (Toy.nodes t2) = Some (Toy.File [])).
  { destruct p as [|c p]; [discriminate|].
    destruct (Toy.lookup (c :: p) (Toy.nodes t)) as [[|old]|];
      try discriminate;
      destruct (Toy.parent_ok (c :: p) (Toy.nodes t)); try discriminate;
      inversion O; subst; simpl;
      now rewrite toy_lookup_store, toy_path_eqb_refl. }
  rewrite L in W. injection W as E1 E2. subst t3. simpl.
  rewrite toy_lookup_store, toy_path_eqb_refl.
  rewrite E2. now rewrite firstn_all.
Qed.

(** ** One round of the entry loop *)

Lemma fread_data (n : nat) (f : FILE_in) : f_data (snd (fread n f)) = f_data f.
Proof. reflexivity. Qed.

Lemma header_magic (f : FILE_in) (offset : Z) (local : list byte) :
  (2 <= length (skipn (Z.to_nat offset) (f_data f)))%nat ->
  let h := snd (fst (mtf_read_compressed_header f offset local)) in
  magic1 h = nth (Z.to_nat offset) (f_data f) x00
  /\ magic2 h = nth (Z.to_nat offset + 1) (f_data f) x00.
Proof.
  intros L h. subst h. unfold mtf_read_compressed_header, fread.
  rewrite f_rest_fseek. cbn [fst snd].
  pose proof (nth_skipn (Z.to_nat offset) (f_data f) 0 x00) as N0.
  pose proof (nth_skipn (Z.to_nat offset) (f_data f) 1 x00) as N1.
  rewrite Nat.add_0_r in N0. rewrite <- N0, <- N1.
  destruct (skipn (Z.to_nat offset) (f_data f)) as [|a [|b l]];
    simpl in L; try lia.
  now split.
Qed.

Section RoundFacts.

Variable heap : nat -> Z -> byte.
Variable stack : nat -> list byte.
Context {FS : Type} `{FileSystem FS}.

(** With the header read and the output file created, a round never
    returns from the batch: it yields the payload routine's verdict. *)
Lemma extract_entry_payload (e : nat) (destPath : list byte) (fs fs2 : FS)
    (f f1 : FILE_in) (entry : mtf_file_entry_t) (h : mtf_compressed_header_t) :
  mtf_read_compressed_header f (dataOffset entry) (stack e) = (true, h, f1) ->
  let p := mtf_fix_filepath (snprintf_path destPath (name_of entry)) in
  fs_fopen_wb (snd (mtf_make_path fs p)) p = Some fs2 ->
  extract_entry heap stack e destPath fs f entry
  = let '(st, fs3, f2) :=
      if mtf_is_compressed h
      then mtf_decompress_write_file (heap e) fs2 p f1 (decompressedSize entry)
      else mtf_write_file fs2 p f1 (decompressedSize entry) (dataOffset entry) in
    Done (is_success st) fs3 f2.
Proof.
  intros Hh p O. unfold extract_entry. rewrite Hh. cbn [negb].
  fold p. destruct (mtf_make_path fs p) as [st1 fs1]. simpl in O.
  now rewrite O.
Qed.

Lemma extract_entry_raw (e : nat) (destPath : list byte) (fs fs2 : FS)
    (f f1 : FILE_in) (entry : mtf_file_entry_t) (h : mtf_compressed_header_t) :
  mtf_read_compressed_header f (dataOffset entry) (stack e) = (true, h, f1) ->
  mtf_is_compressed h = false ->
  let p := mtf_fix_filepath (snprintf_path destPath (name_of entry)) in
  fs_fopen_wb (snd (mtf_make_path fs p)) p = Some fs2 ->
  let bytes := firstn (Z.to_nat (decompressedSize entry))
                 (skipn (Z.to_nat (dataOffset entry)) (f_data f)) in
  exists ok fs3 f3,
    extract_entry heap stack e destPath fs f entry = Done ok fs3 f3
    /\ (ok = true
        <-> length bytes = Z.to_nat (decompressedSize entry)
            /\ snd (fs_fwrite fs2 p bytes) = Z.to_nat (decompressedSize entry))
    /\ (ok = true -> fs3 = fst (fs_fwrite fs2 p bytes)).
Proof.
  intros Hh Hc p O bytes.
  rewrite (extract_entry_payload e destPath fs fs2 f f1 entry h Hh O), Hc.
  assert (Ed : f_data f1 = f_data f).
  { unfold mtf_read_compressed_header in Hh.
    destruct (fread 12 (fseek (dataOffset entry) f)) as [got f'] eqn:R.
    inversion Hh; subst.
    change f1 with (snd (got, f1)). rewrite <- R. reflexivity. }
  destruct (mtf_write_file_spec fs2 p f1 (decompressedSize entry)
              (dataOffset entry)) as [S1 S2].
  rewrite Ed in S1, S2. fold bytes in S1, S2.
  fold p in S1, S2 |- *.
  destruct (mtf_write_file fs2 p f1 (decompressedSize entry) (dataOffset entry))
    as [[st fs3] f3].
  simpl in S1, S2. exists (is_success st), fs3, f3.
  split; [reflexivity|].
  destruct st; simpl.
  - split; [tauto|]. intros _. now apply S2.
  - split; [split; [discriminate|]|discriminate].
    intros C. apply S1 in C. discriminate.
Qed.

End RoundFacts.

(** C6: an entry is classified as compressed exactly when its first magic
    byte is [0xAE] or [0xAF] and its second is [0xBE], these being the two
    bytes of the archive at [dataOffset]; otherwise it is stored raw, and
    what a raw entry writes is the [decompressedSize] bytes of the archive
    that start at [dataOffset] itself: the twelve bytes peeked for the
    header are read again. *)
Theorem raw_entries_copied_verbatim :
  (forall h,
      mtf_is_compressed h = true
      <-> (magic1 h = xae \/ magic1 h = xaf) /\ magic2 h = xbe)
  /\ (forall f offset local,
         (2 <= length (skipn (Z.to_nat offset) (f_data f)))%nat ->
         let h := snd (fst (mtf_read_compressed_header f offset local)) in
         magic1 h = nth (Z.to_nat offset) (f_data f) x00
         /\ magic2 h = nth (Z.to_nat offset + 1) (f_data f) x00)
  /\ (forall (FS : Type) (H : FileSystem FS) heap stack e destPath
             (fs fs2 : FS) f f1 entry h,
         mtf_read_compressed_header f (dataOffset entry) (stack e)
         = (true, h, f1) ->
         mtf_is_compressed h = false ->
         let p := mtf_fix_filepath (snprintf_path destPath (name_of entry)) in
         fs_fopen_wb (snd (mtf_make_path fs p)) p = Some fs2 ->
         let bytes := firstn (Z.to_nat (decompressedSize entry))
                        (skipn (Z.to_nat (dataOffset entry)) (f_data f)) in
         exists ok fs3 f3,
           extract_entry heap stack e destPath fs f entry = Done ok fs3 f3
           /\ (ok = true
               <-> length bytes = Z.to_nat (decompressedSize entry)
                   /\ snd (fs_fwrite fs2 p bytes)
                      = Z.to_nat (decompressedSize entry))
           /\ (ok = true -> fs3 = fst (fs_fwrite fs2 p bytes)))
  /\ (forall t t2 t3 p bytes,
         Toy.fopen_wb t p = Some t2 ->
         Toy.fwrite t2 p bytes = (t3, length bytes) ->
         Toy.lookup p (Toy.nodes t3) = Some (Toy.File bytes)).
Proof.
  split; [exact mtf_is_compressed_iff|].
  split; [exact header_magic|].
  split; [|exact toy_written_file].
  intros FS H heap stack e destPath fs fs2 f f1 entry h.
  apply extract_entry_raw.
Qed.

(** ** Path materialization *)

Lemma not_ascii_iff (c : byte) :
  negb (mtf_is_ascii (char_to_int c)) = (128 <=? u8 c).
Proof.
  unfold mtf_is_ascii, char_to_int. pose proof (u8_range c) as R.
  destruct (u8 c <? 128) eqn:E.
  - apply Z.ltb_lt in E.
    replace (0 <=? u8 c) with true by (symmetry; apply Z.leb_le; lia).
    replace (u8 c <? 128) with true by (symmetry; apply Z.ltb_lt; lia).
    symmetry. apply Z.leb_gt. lia.
  - apply Z.ltb_ge in E.
    replace (0 <=? u8 c - 256) with false by (symmetry; apply Z.leb_gt; lia).
    symmetry. apply Z.leb_le. lia.
Qed.

Lemma fix_char_not_nul (c : byte) : c <> x00 -> fix_char c <> x00.
Proof.
  unfold fix_char. intros N.
  destruct (Byte.eqb c x5c); [discriminate|].
  destruct (128 <=? u8 c); [discriminate | exact N].
Qed.

Lemma mtf_fix_filepath_map (p : list byte) :
  c_str (mtf_fix_filepath p) = map fix_char (c_str p).
Proof.
  induction p as [|c p IH]; [reflexivity|].
  cbn [mtf_fix_filepath c_str].
  destruct (Byte.eqb c x00) eqn:E.
  - cbn [c_str]. now rewrite E.
  - cbn [c_str map]. rewrite not_ascii_iff. fold (fix_char c).
    apply byte_eqb_neq in E. apply fix_char_not_nul, byte_eqb_neq in E.
    now rewrite E, IH.
Qed.

Section PathFacts.

Context {FS : Type} `{FileSystem FS}.

Lemma make_path_scan_components (fs : FS) (before rest : list byte) :
  make_path_scan fs before rest
  = make_directories fs (dir_components before rest).
Proof.
  revert fs before. induction rest as [|c rest IH]; intros fs before.
  - reflexivity.
  - cbn [make_path_scan dir_components].
    destruct (Byte.eqb c x00); [reflexivity|].
    destruct (Byte.eqb c x2f || Byte.eqb c x5c); [|apply IH].
    cbn [make_directories].
    destruct (mtf_make_directory fs before) as [[|m] fs']; [apply IH|].
    reflexivity.
Qed.

Lemma mtf_make_directory_cases (fs : FS) (d : path) :
  (fs_stat fs d = Some S_IFDIR -> mtf_make_directory fs d = (Success, fs))
  /\ (fs_stat fs d = Some S_IFREG ->
      mtf_make_directory fs d = (Failure MsgPathIsFile, fs))
  /\ (fs_stat fs d = None ->
      mtf_make_directory fs d
      = match fs_mkdir fs d with
        | Some fs' => (Success, fs')
        | None => (Failure MsgMkdirFailed, fs)
        end).
Proof.
  unfold mtf_make_directory.
  repeat split; intros E; rewrite E; reflexivity.
Qed.


Hypothesis mkdir_makes_dir :
  forall (fs fs' : FS) d, fs_mkdir fs d = Some fs' -> fs_stat fs' d = Some S_IFDIR.
Hypothesis mkdir_keeps_dirs :
  forall (fs fs' : FS) d q,
    fs_mkdir fs d = Some fs' ->
    fs_stat fs q = Some S_IFDIR -> fs_stat fs' q = Some S_IFDIR.

Lemma mtf_make_directory_ok (fs fs' : FS) (d : path) :
  mtf_make_directory fs d = (Success, fs') ->
  fs_stat fs' d = Some S_IFDIR
  /\ forall q, fs_stat fs q = Some S_IFDIR -> fs_stat fs' q = Some S_IFDIR.
Proof.
  unfold mtf_make_directory.
  destruct (fs_stat fs d) as [[|]|] eqn:S.
  - intros E. inversion E; subst. auto.
  - discriminate.
  - destruct (fs_mkdir fs d) as [fs1|] eqn:M; [|discriminate].
    intros E. inversion E; subst. split.
    + exact (mkdir_makes_dir _ _ _ M).
    + intros q. exact (mkdir_keeps_dirs _ _ _ q M).
Qed.

Lemma make_directories_ok (ds : list path) (fs fs' : FS) :
  make_directories fs ds = (Success, fs') ->
  (forall q, fs_stat fs q = Some S_IFDIR -> fs_stat fs' q = Some S_IFDIR)
  /\ forall d, In d ds -> fs_stat fs' d = Some S_IFDIR.
Proof.
  revert fs. induction ds as [|d ds IH]; intros fs E; simpl in E.
  - inversion E; subst. split; [auto | intros d []].
  - destruct (mtf_make_directory fs d) as [[|m] fs1] eqn:M; [|discriminate].
    destruct (mtf_make_directory_ok fs fs1 d M) as [D K].
    destruct (IH fs1 E) as [K' A]. split.
    + intros q Q. apply K', K, Q.
    + intros d' [<- | I]; [apply K', D | apply A, I].
Qed.

End PathFacts.

Lemma toy_mkdir_makes_dir (t t' : Toy.fs) (d : path) :
  fs_mkdir t d = Some t' -> fs_stat t' d = Some S_IFDIR.
Proof.
  simpl. unfold Toy.mkdir, Toy.stat. intros M.
  destruct d as [|c d]; [discriminate|].
  destruct (Toy.lookup (c :: d) (Toy.nodes t)); [discriminate|].
  destruct (Toy.parent_ok (c :: d) (Toy.nodes t)); [|discriminate].
  inversion M; subst; simpl.
  now rewrite toy_lookup_store, toy_path_eqb_refl.
Qed.

Lemma toy_mkdir_keeps_dirs (t t' : Toy.fs) (d q : path) :
  fs_mkdir t d = Some t' ->
  fs_stat t q = Some S_IFDIR -> fs_stat t' q = Some S_IFDIR.
Proof.
  simpl. unfold Toy.mkdir, Toy.stat. intros M Q.
  destruct d as [|c d]; [discriminate|].
  destruct (Toy.lookup (c :: d) (Toy.nodes t)); [discriminate|].
  destruct (Toy.parent_ok (c :: d) (Toy.nodes t)); [|discriminate].
  inversion M; subst; simpl.
  rewrite toy_lookup_store.
  destruct (Toy.path_eqb q (c :: d)); [reflexivity | exact Q].
Qed.

(** A path that begins with a separator has the empty string as its
    first directory component: that is what [stat] and [mkdir] are first
    asked about, and on the small file system, where the empty path names
    nothing, [mtf_make_path] stops there. *)
Lemma make_path_leading_separator (p : list byte) :
  dir_components [] (x2f :: p) = [] :: dir_components [x2f] p
  /\ mtf_make_path Demo.disk (x2f :: p) = (Failure MsgMkdirFailed, Demo.disk).
Proof.
  split; [reflexivity|].
  unfold mtf_make_path. rewrite make_path_scan_components. reflexivity.
Qed.



(** ** Loading the entry table *)

Lemma le_decode_range (bs : list byte) :
  0 <= le_decode bs < 256 ^ Z.of_nat (length bs).
Proof.
  induction bs as [|b bs IH].
  - simpl. lia.
  - cbn [le_decode length]. pose proof (u8_range b).
    rewrite Nat2Z.inj_succ, Z.pow_succ_r by lia. lia.
Qed.

Lemma mtf_read32_cases (f : FILE_in) (old : Z) :
  ((4 <= length (f_rest f))%nat
   /\ mtf_read32 f old = (true, le_decode (firstn 4 (f_rest f)), advance 4 f))
  \/ ((length (f_rest f) < 4)%nat
      /\ exists v f', mtf_read32 f old = (false, v, f') /\ f_rest f' = []).
Proof.
  unfold mtf_read32.
  destruct (Nat.le_gt_cases 4 (length (f_rest f))) as [L|L].
  - left. split; [exact L|].
    rewrite (fread_full 4 f L).
    rewrite length_firstn, Nat.min_l by exact L.
    unfold overlay. rewrite length_firstn, Nat.min_l by exact L.
    cbn [Nat.eqb le_encode skipn]. now rewrite app_nil_r.
  - right. split; [exact L|].
    destruct (fread_short 4 f L) as [G R].
    destruct (fread 4 f) as [got f']. simpl in G, R. subst got.
    eexists. exists f'. split; [|exact R].
    replace (length (f_rest f) =? 4)%nat with false
      by (symmetry; apply Nat.eqb_neq; lia).
    reflexivity.
Qed.

Lemma fread_cases (n : nat) (f : FILE_in) :
  ((n <= length (f_rest f))%nat
   /\ fread n f = (firstn n (f_rest f), advance n f))
  \/ ((length (f_rest f) < n)%nat
      /\ exists got f', fread n f = (got, f') /\ f_rest f' = []).
Proof.
  destruct (Nat.le_gt_cases n (length (f_rest f))) as [L|L].
  - left. split; [exact L | exact (fread_full n f L)].
  - right. split; [exact L|].
    destruct (fread_short n f L) as [G R].
    destruct (fread n f) as [got f']. eauto.
Qed.

(** Settle a comparison of two lengths that the context decides. *)
Ltac nat_leb_is x y b :=
  replace (x <=? y)%nat with b
    by (symmetry; first [apply Nat.leb_le; lia | apply Nat.leb_gt; lia]).

(** One row: it is read when all of its [len + 12] bytes are there, and
    otherwise the round fails with a read message, whichever of its four
    reads falls short. *)
Lemma read_entry_spec (f : FILE_in) :
  let rest := f_rest f in
  let len := Z.to_nat (le_decode (firstn 4 rest)) in
  if (4 <=? length rest)%nat && (len + 12 <=? length rest)%nat
  then exists f',
      read_entry f
      = (Success,
         mkEntry (Some (firstn len (skipn 4 rest) ++ [x00]))
           (le_decode (firstn 4 rest))
           (le_decode (firstn 4 (skipn (4 + len) rest)))
           (le_decode (firstn 4 (skipn (8 + len) rest))),
         f')
      /\ f_rest f' = skipn (len + 12) rest
  else exists m entry f',
      read_entry f = (Failure m, entry, f')
      /\ (m = MsgFilenameLength \/ m = MsgOffsetOrSize)
      /\ (m = MsgFilenameLength -> filename entry = None).
Proof.
  intros rest len. unfold read_entry.
  destruct (mtf_read32_cases f 0) as [[L1 E1] | [L1 (v & f' & E1 & R1)]];
    rewrite E1; cbn [negb]; fold rest in L1 |- *; fold len.
  2:{ nat_leb_is 4%nat (length rest) false.
      simpl. eauto 10. }
  nat_leb_is 4%nat (length rest) true.
  cbn [andb].
  assert (R4 : f_rest (advance 4 f) = skipn 4 rest) by apply f_rest_advance.
  destruct (fread_cases len (advance 4 f)) as [[L2 E2] | [L2 (g & f2 & E2 & R2)]];
    rewrite E2, ?R4 in *; rewrite length_skipn in L2.
  2:{ nat_leb_is (len + 12)%nat (length rest) false.
      destruct (mtf_read32_cases f2 0) as [[L3 _] | [_ (v & f3 & E3 & _)]].
      - rewrite R2 in L3. simpl in L3. lia.
      - rewrite E3. cbn [negb]. eexists. eexists. eexists.
        split; [reflexivity|]. split; [now right | discriminate]. }
  assert (R5 : f_rest (advance len (advance 4 f)) = skipn (4 + len) rest).
  { rewrite f_rest_advance, R4, skipn_skipn. f_equal. lia. }
  destruct (mtf_read32_cases (advance len (advance 4 f)) 0)
    as [[L3 E3] | [L3 (v & f3 & E3 & _)]]; rewrite E3; cbn [negb];
    rewrite R5 in *; rewrite length_skipn in L3.
  2:{ nat_leb_is (len + 12)%nat (length rest) false.
      eexists. eexists. eexists.
      split; [reflexivity|]. split; [now right | discriminate]. }
  assert (R6 : f_rest (advance 4 (advance len (advance 4 f)))
               = skipn (8 + len) rest).
  { rewrite f_rest_advance, R5, skipn_skipn. f_equal. }
  destruct (mtf_read32_cases (advance 4 (advance len (advance 4 f))) 0)
    as [[L4 E4] | [L4 (v & f4 & E4 & _)]]; rewrite E4; cbn [negb];
    rewrite R6 in *; rewrite length_skipn in L4.
  2:{ nat_leb_is (len + 12)%nat (length rest) false.
      eexists. eexists. eexists.
      split; [reflexivity|]. split; [now right | discriminate]. }
  nat_leb_is (len + 12)%nat (length rest) true.
  eexists. split; [reflexivity|].
  rewrite f_rest_advance, R6, skipn_skipn. f_equal. lia.
Qed.

Lemma read_entries_spec (n : nat) :
  forall (f : FILE_in) (done : list mtf_file_entry_t),
    if table_complete n (f_rest f)
    then exists es f',
        read_entries n f done = (Success, done ++ es, f')
        /\ length es = n
    else exists m arr f',
        read_entries n f done = (Failure m, arr, f')
        /\ kind_of m = IoError
        /\ length arr = (length done + n)%nat.
Proof.
  induction n as [|n IH]; intros f done.
  - simpl. exists [], f. now rewrite app_nil_r.
  - cbn [table_complete read_entries].
    pose proof (read_entry_spec f) as S. cbv zeta in S.
    destruct ((4 <=? length (f_rest f))%nat
              && (Z.to_nat (le_decode (firstn 4 (f_rest f))) + 12
                  <=? length (f_rest f))%nat).
    + destruct S as (f' & E & R). rewrite E. cbn [andb].
      rewrite <- R.
      match goal with
      | |- context [read_entries n f' (done ++ [?x])] =>
          specialize (IH f' (done ++ [x])); set (row := x) in *
      end.
      destruct (table_complete n (f_rest f')).
      * destruct IH as (es & f2 & E2 & L2).
        exists (row :: es), f2. rewrite E2, <- app_assoc.
        split; [reflexivity | simpl; lia].
      * destruct IH as (m & arr & f2 & E2 & K2 & L2).
        exists m, arr, f2. rewrite E2. repeat split; auto.
        rewrite L2, length_app. simpl. lia.
    + destruct S as (m & entry & f' & E & M & _). rewrite E. cbn [andb].
      exists m, (done ++ entry :: repeat entry_zero n), f'.
      split; [reflexivity|]. split.
      * destruct M as [-> | ->]; reflexivity.
      * rewrite length_app. simpl. rewrite repeat_length. lia.
Qed.

Lemma mtf_file_open_spec (f : FILE_in) :
  let rest := f_rest f in
  let count := le_decode (firstn 4 rest) in
  if (length rest <? 4)%nat
  then exists v,
      mtf_file_open (Some f) = (Failure MsgEntryCount, mkMtf None None v, [Fclose])
  else if count =? 0
  then mtf_file_open (Some f) = (Failure MsgNoFiles, mkMtf None None 0, [Fclose])
  else if table_complete (Z.to_nat count) (skipn 4 rest)
  then exists table f2,
      read_entries (Z.to_nat count) (advance 4 f) [] = (Success, table, f2)
      /\ length table = Z.to_nat count
      /\ mtf_file_open (Some f)
         = (Success,
            mkMtf (Some f2) (Some (qsort mtf_sort_by_filename table)) count, [])
  else exists m arr f2,
      read_entries (Z.to_nat count) (advance 4 f) [] = (Failure m, arr, f2)
      /\ kind_of m = IoError
      /\ mtf_file_open (Some f)
         = (Failure m, mkMtf None None 0,
            Fclose :: flat_map free_filename arr ++ [FreeEntries]).
Proof.
  intros rest count. unfold mtf_file_open.
  destruct (mtf_read32_cases f 0) as [[L1 E1] | [L1 (v & f' & E1 & R1)]];
    rewrite E1; cbn [negb]; fold rest in L1 |- *; fold count.
  2:{ replace (length rest <? 4)%nat with true
        by (symmetry; apply Nat.ltb_lt; lia).
      exists v. reflexivity. }
  replace (length rest <? 4)%nat with false
    by (symmetry; apply Nat.ltb_ge; lia).
  destruct (count =? 0) eqn:C0.
  { apply Z.eqb_eq in C0. rewrite C0. reflexivity. }
  pose proof (read_entries_spec (Z.to_nat count) (advance 4 f) []) as S.
  rewrite f_rest_advance in S. fold rest in S.
  destruct (table_complete (Z.to_nat count) (skipn 4 rest)).
  - destruct S as (es & f2 & E & L). simpl in E.
    exists es, f2. rewrite E. auto.
  - destruct S as (m & arr & f2 & E & K & L). simpl in L.
    exists m, arr, f2. rewrite E. split; [reflexivity|]. split; [exact K|].
    cbn [mtf_file_close osFileHandle fileEntries fileEntryCount].
    rewrite <- L, firstn_all. reflexivity.
Qed.



(** ** The order of the entry table *)

Lemma c_str_cons (c : byte) (l : list byte) :
  c_str (c :: l) = if u8 c =? 0 then [] else c :: c_str l.
Proof.
  cbn [c_str]. destruct (Byte.eqb c x00) eqn:E.
  - apply byte_eqb_eq in E. subst c. reflexivity.
  - apply byte_eqb_neq in E.
    destruct (u8 c =? 0) eqn:Z0; [|reflexivity].
    apply Z.eqb_eq in Z0. destruct E. now apply u8_inj.
Qed.

(** [strcmp] orders by the byte-wise lexical order of the two strings. *)
Lemma strcmp_lex (a b : list byte) :
  strcmp a b <= 0 <-> lex_le (c_str a) (c_str b).
Proof.
  revert b. induction a as [|ca a IH]; intros b.
  - simpl. pose proof (u8_range (hd x00 b)). split; [trivial | lia].
  - cbn [strcmp]. rewrite c_str_cons.
    pose proof (u8_range ca) as Ra.
    destruct b as [|cb b]; cbn [hd tl].
    + change (u8 x00) with 0.
      destruct (u8 ca =? 0) eqn:Za; simpl; [lia|].
      apply Z.eqb_neq in Za. lia.
    + rewrite c_str_cons. pose proof (u8_range cb) as Rb.
      destruct (u8 ca =? u8 cb) eqn:Eab.
      * apply Z.eqb_eq in Eab. rewrite <- Eab.
        destruct (u8 ca =? 0) eqn:Za; simpl; [lia|].
        rewrite IH. apply u8_inj in Eab. subst cb.
        split; [auto | intros [L | [_ L]]; [lia | exact L]].
      * apply Z.eqb_neq in Eab.
        destruct (u8 ca =? 0) eqn:Za, (u8 cb =? 0) eqn:Zb; simpl;
          rewrite ?Z.eqb_eq, ?Z.eqb_neq in *; try lia.
        split; [lia | intros [L | [E _]]; [lia | subst; lia]].
Qed.

Lemma lex_le_total (a b : list byte) : lex_le a b \/ lex_le b a.
Proof.
  revert b. induction a as [|x a IH]; intros [|y b]; simpl; auto.
  destruct (Z.lt_trichotomy (u8 x) (u8 y)) as [L | [E | G]]; auto.
  apply u8_inj in E. subst y. destruct (IH b); auto.
Qed.

Lemma lex_le_trans (a b c : list byte) :
  lex_le a b -> lex_le b c -> lex_le a c.
Proof.
  revert b c. induction a as [|x a IH]; intros [|y b] [|z c]; simpl; auto;
    try tauto.
  intros [L1 | [E1 L1]] [L2 | [E2 L2]]; subst; auto; [left; lia|].
  right. split; [reflexivity | eapply IH; eauto].
Qed.

Lemma lex_le_antisym (a b : list byte) : lex_le a b -> lex_le b a -> a = b.
Proof.
  revert b. induction a as [|x a IH]; intros [|y b]; simpl; try tauto.
  intros [L1 | [E1 L1]] [L2 | [E2 L2]]; subst; try lia.
  f_equal. now apply IH.
Qed.

Lemma filename_le_lex (a b : mtf_file_entry_t) :
  filename_le a b <-> lex_le (c_str (name_of a)) (c_str (name_of b)).
Proof. apply strcmp_lex. Qed.

Lemma filename_le_total (a b : mtf_file_entry_t) :
  filename_le a b \/ filename_le b a.
Proof. rewrite !filename_le_lex. apply lex_le_total. Qed.

Lemma filename_le_trans (a b c : mtf_file_entry_t) :
  filename_le a b -> filename_le b c -> filename_le a c.
Proof. rewrite !filename_le_lex. apply lex_le_trans. Qed.

Section SortFacts.

Variable A : Type.
Variable cmp : A -> A -> Z.

Hypothesis le_total : forall x y, cmp_le cmp x y \/ cmp_le cmp y x.
Hypothesis le_trans :
  forall x y z, cmp_le cmp x y -> cmp_le cmp y z -> cmp_le cmp x z.

Lemma qsort_insert_perm (x : A) (l : list A) :
  Permutation (x :: l) (qsort_insert cmp x l).
Proof.
  induction l as [|y l IH]; simpl; [auto|].
  destruct (cmp x y <=? 0); [auto|].
  eapply perm_trans; [apply perm_swap | apply perm_skip, IH].
Qed.

Lemma qsort_perm (l : list A) : Permutation l (qsort cmp l).
Proof.
  induction l as [|x l IH]; simpl; [auto|].
  eapply perm_trans; [apply perm_skip, IH | apply qsort_insert_perm].
Qed.

Lemma qsort_insert_sorted (x : A) (l : list A) :
  StronglySorted (cmp_le cmp) l ->
  StronglySorted (cmp_le cmp) (qsort_insert cmp x l).
Proof.
  induction l as [|y l IH]; intros S; simpl.
  - constructor; constructor.
  - inversion S as [|? ? S' F]; subst.
    destruct (cmp x y <=? 0) eqn:C.
    + apply Z.leb_le in C. constructor; [exact S|].
      constructor; [exact C|].
      eapply Forall_impl; [|exact F]. intros z Lz. exact (le_trans _ _ _ C Lz).
    + apply Z.leb_gt in C.
      assert (Lyx : cmp_le cmp y x)
        by (destruct (le_total x y) as [L|L]; [unfold cmp_le in L; lia | exact L]).
      constructor; [apply IH, S'|].
      eapply Permutation_Forall; [apply qsort_insert_perm|].
      constructor; assumption.
Qed.

Lemma qsort_sorted (l : list A) : StronglySorted (cmp_le cmp) (qsort cmp l).
Proof.
  induction l as [|x l IH]; simpl; [constructor | now apply qsort_insert_sorted].
Qed.

End SortFacts.

(** Two ordered lists with the same elements, under an antisymmetric
    order, are the same list. *)
Lemma sorted_perm_unique (K : Type) (R : K -> K -> Prop) :
  (forall x y, R x y -> R y x -> x = y) ->
  (forall x, R x x) ->
  forall l1 l2,
    StronglySorted R l1 -> StronglySorted R l2 -> Permutation l1 l2 -> l1 = l2.
Proof.
  intros Anti Refl. induction l1 as [|a l1 IH]; intros l2 S1 S2 P.
  - apply Permutation_nil in P. now subst.
  - destruct l2 as [|b l2].
    { apply Permutation_sym, Permutation_nil in P. discriminate. }
    inversion S1 as [|? ? S1' F1]; subst.
    inversion S2 as [|? ? S2' F2]; subst.
    assert (E : a = b).
    { apply Anti.
      - assert (I : In a (b :: l2)) by (eapply Permutation_in; [exact P | now left]).
        destruct I as [<- | I]; [apply Refl|].
        rewrite Forall_forall in F2.
        assert (I' : In b (a :: l1))
          by (eapply Permutation_in; [apply Permutation_sym, P | now left]).
        destruct I' as [<- | I']; [apply Refl|].
        rewrite Forall_forall in F1. now apply F1.
      - assert (I' : In b (a :: l1))
          by (eapply Permutation_in; [apply Permutation_sym, P | now left]).
        destruct I' as [<- | I']; [apply Refl|].
        assert (I : In a (b :: l2)) by (eapply Permutation_in; [exact P | now left]).
        destruct I as [<- | I]; [apply Refl|].
        rewrite Forall_forall in F2. now apply F2. }
    subst b. f_equal. apply IH; auto.
    eapply Permutation_cons_inv, P.
Qed.

Lemma StronglySorted_map (A K : Type) (key : A -> K) (R : K -> K -> Prop)
    (l : list A) :
  StronglySorted (fun x y => R (key x) (key y)) l ->
  StronglySorted R (map key l).
Proof.
  induction 1 as [|x l S IH F]; simpl; constructor; auto.
  rewrite Forall_map. exact F.
Qed.

Lemma StronglySorted_weaken (A : Type) (R R' : A -> A -> Prop) (l : list A) :
  (forall x y, R x y -> R' x y) ->
  StronglySorted R l -> StronglySorted R' l.
Proof.
  intros W. induction 1 as [|x l S IH F]; constructor; auto.
  eapply Forall_impl; [|exact F]. intros y. apply W.
Qed.

Lemma lex_le_refl (a : list byte) : lex_le a a.
Proof. destruct (lex_le_total a a); assumption. Qed.

(** The order the table ends up in depends on the set of rows only. *)
Lemma qsort_names_order_independent (t1 t2 : list mtf_file_entry_t) :
  Permutation t1 t2 ->
  map (fun e => c_str (name_of e)) (qsort mtf_sort_by_filename t1)
  = map (fun e => c_str (name_of e)) (qsort mtf_sort_by_filename t2).
Proof.
  intros P.
  apply (sorted_perm_unique _ lex_le lex_le_antisym lex_le_refl).
  - apply StronglySorted_map.
    eapply StronglySorted_weaken;
      [|apply (qsort_sorted _ mtf_sort_by_filename
                 filename_le_total filename_le_trans)].
    intros x y. apply filename_le_lex.
  - apply StronglySorted_map.
    eapply StronglySorted_weaken;
      [|apply (qsort_sorted _ mtf_sort_by_filename
                 filename_le_total filename_le_trans)].
    intros x y. apply filename_le_lex.
  - apply Permutation_map.
    eapply perm_trans; [apply Permutation_sym, qsort_perm|].
    eapply perm_trans; [exact P | apply qsort_perm].
Qed.

(** C7: a successful load of an archive that declares [N] entries, [N > 0],
    yields an index of exactly [N] descriptors: the rows of the table,
    arranged in ascending order of their filenames under the byte-wise
    lexical order of [strcmp], which is total; the resulting order of
    names does not depend on the order of the rows in the archive. *)
Theorem entry_table_sorted :
  (forall f mtf freed,
      mtf_file_open (Some f) = (Success, mtf, freed) ->
      let N := le_decode (firstn 4 (f_rest f)) in
      0 < N
      /\ fileEntryCount mtf = N
      /\ exists table f2 sorted,
          read_entries (Z.to_nat N) (advance 4 f) [] = (Success, table, f2)
          /\ fileEntries mtf = Some sorted
          /\ Z.of_nat (length sorted) = N
          /\ Permutation table sorted
          /\ StronglySorted filename_le sorted)
  /\ (forall a b,
         filename_le a b <-> lex_le (c_str (name_of a)) (c_str (name_of b)))
  /\ (forall a b, filename_le a b \/ filename_le b a)
  /\ (forall t1 t2,
         Permutation t1 t2 ->
         map (fun e => c_str (name_of e)) (qsort mtf_sort_by_filename t1)
         = map (fun e => c_str (name_of e)) (qsort mtf_sort_by_filename t2)).
Proof.
  split; [|split; [exact filename_le_lex|
           split; [exact filename_le_total|
                   exact qsort_names_order_independent]]].
  intros f mtf freed E N.
  pose proof (mtf_file_open_spec f) as S. cbv zeta in S. fold N in S.
  destruct (length (f_rest f) <? 4)%nat.
  { destruct S as [v E']. rewrite E' in E. discriminate. }
  destruct (N =? 0) eqn:N0.
  { rewrite S in E. discriminate. }
  apply Z.eqb_neq in N0.
  destruct (table_complete (Z.to_nat N) (skipn 4 (f_rest f))).
  2:{ destruct S as (m & arr & f2 & _ & _ & E'). rewrite E' in E. discriminate. }
  destruct S as (table & f2 & R & L & E'). rewrite E' in E.
  inversion E; subst mtf freed. clear E.
  pose proof (le_decode_range (firstn 4 (f_rest f))) as Rg. fold N in Rg.
  split; [lia|]. split; [reflexivity|].
  exists table, f2, (qsort mtf_sort_by_filename table).
  pose proof (qsort_perm _ mtf_sort_by_filename table) as P.
  repeat split; auto.
  - rewrite <- (Permutation_length P), L. lia.
  - apply (qsort_sorted _ mtf_sort_by_filename
             filename_le_total filename_le_trans).
Qed.

Lemma entry_table_sorted_witness :
  (let N := le_decode (firstn 4 (f_rest (file_of Demo.archive))) in
   0 < N /\ fileEntryCount Demo.opened = N)
  /\ map (fun e => c_str (name_of e))
       (qsort mtf_sort_by_filename (rev Demo.entries))
     = map (fun e => c_str (name_of e))
         (qsort mtf_sort_by_filename Demo.entries).
Proof.
  split.
  - intros N.
    destruct (proj1 entry_table_sorted (file_of Demo.archive) Demo.opened
                (snd (mtf_file_open (Some (file_of Demo.archive)))))
      as (P & C & _).
    + vm_compute. reflexivity.
    + split; [exact P | exact C].
  - apply (proj2 (proj2 (proj2 entry_table_sorted))).
    apply Permutation_sym, Permutation_rev.
Defined.

(** ** The entry loop and the batch *)

Section BatchFacts.

Variable heap : nat -> Z -> byte.
Variable stack : nat -> list byte.
Context {FS : Type} `{FileSystem FS}.










(** What the batch call reports, from how the entry loop ended. *)
Lemma mtf_file_extract_batch_result (opened : option FILE_in)
    (destPath : list byte) (max : Z) (fs : FS) (mtf : mtf_file_t)
    (freed : list release) (f : FILE_in) (entries : list mtf_file_entry_t) :
  mtf_file_open opened = (Success, mtf, freed) ->
  osFileHandle mtf = Some f -> fileEntries mtf = Some entries ->
  let r := mtf_file_extract_batch heap stack opened destPath max fs in
  match extract_loop heap stack
          (firstn (Z.to_nat (fileEntryCount mtf)) entries) 0 destPath max fs f 0
  with
  | inr x =>
      batch_ok r = true /\ filesExtracted r = Some (exit_count x)
      /\ batch_fs r = exit_fs x
  | inl (m, fs', _) =>
      batch_ok r = false /\ batch_error r = Some m /\ filesExtracted r = None
  end.
Proof.
  intros O Hf He r. subst r. unfold mtf_file_extract_batch.
  rewrite O, Hf, He.
  destruct (extract_loop heap stack _ 0 destPath max fs f 0)
    as [[[m fs'] f'] | x]; simpl; auto.
Qed.

End BatchFacts.





Lemma raw_entries_copied_verbatim_witness :
  (exists ok fs3 f3,
      extract_entry Demo.heaps0 Demo.stack0 0 Demo.out Demo.disk Demo.stream
        (mkEntry (Some [x61; x00; x00]) 2 74 2)
      = Done ok fs3 f3
      /\ ok = true
      /\ Toy.lookup (Demo.out ++ [x2f; x61]) (Toy.nodes fs3)
         = Some (Toy.File Demo.data_a))
  /\ (let h := snd (fst (mtf_read_compressed_header Demo.stream 76
                           (Demo.stack0 1))) in
      magic1 h = nth (Z.to_nat 76) (f_data Demo.stream) x00
      /\ magic2 h = nth (Z.to_nat 76 + 1) (f_data Demo.stream) x00).
Proof.
  pose proof raw_entries_copied_verbatim as (_ & Wm & W & Wt).
  split.
  - pose (entry := mkEntry (Some [x61; x00; x00]) 2 74 2).
    pose (X := mtf_read_compressed_header Demo.stream (dataOffset entry)
                 (Demo.stack0 0)).
    pose (p := mtf_fix_filepath (snprintf_path Demo.out (name_of entry))).
    pose (fs2 := Toy.mkFs [(Demo.out, Toy.Dir); (p, Toy.File [])] 100).
    destruct (W Toy.fs Toy.toy_fs Demo.heaps0 Demo.stack0 0%nat Demo.out
                Demo.disk fs2 Demo.stream (snd X) entry (snd (fst X)))
      as (ok & fs3 & f3 & E & I & G).
    + vm_compute. reflexivity.
    + vm_compute. reflexivity.
    + vm_compute. reflexivity.
    + assert (O : ok = true) by (apply I; vm_compute; split; reflexivity).
      exists ok, fs3, f3. split; [exact E|]. split; [exact O|].
      rewrite (G O).
      apply (Wt (Toy.mkFs [(Demo.out, Toy.Dir)] 100) fs2);
        vm_compute; reflexivity.
  - apply (Wm Demo.stream 76 (Demo.stack0 1)). vm_compute. lia.
Defined.

(* ================================================================== *)
(** * Further properties of the extractor *)

(** ** The counter and the cursor of the decompressor *)

Section DecoderInvariant.

Variable heap : Z -> byte.
Variable size : Z.

Lemma copy_run_counter (n : nat) (offset : Z) (out : list byte) :
  snd (copy_run heap n offset out (sint32 (size - Z.of_nat (length out))))
  = sint32 (size - Z.of_nat
                     (length (fst (copy_run heap n offset out
                                     (sint32 (size - Z.of_nat (length out))))))).
Proof.
  revert out. induction n as [|n IH]; intros out; [reflexivity|].
  rewrite !copy_run_step, sint32_sub.
  replace (size - Z.of_nat (length out) - 1)
    with (size - Z.of_nat (length (out ++ [peek heap out offset])))
    by (rewrite length_app; simpl; lia).
  apply IH.
Qed.

Lemma do_bit_counter (c : byte) (b : Z) (s : dstate) :
  counter_ok size s -> counter_ok size (flow_state (do_bit heap c b s)).
Proof.
  unfold counter_ok, do_bit. intros I.
  destruct (negb (Z.land (u8 c) (Z.shiftl 1 b) =? 0)).
  - destruct (mtf_read8 (d_in s)) as [[x|] f']; simpl; [|exact I].
    rewrite I, sint32_sub, length_app. simpl. f_equal. lia.
  - destruct (mtf_read16 (d_in s)) as [[w|] f']; simpl; [|exact I].
    destruct (w =? 0); simpl; [exact I|].
    rewrite I.
    pose proof (copy_run_counter (Z.to_nat (Z.shiftr w 10 + 3))
                  (Z.land w 1023) (d_out s)) as C.
    destruct (copy_run heap _ _ _ _) as [out' left']. simpl in C.
    destruct (left' <? 0); simpl; exact C.
Qed.

Lemma for_bits_counter (n : nat) (b : Z) (c : byte) (s : dstate) :
  counter_ok size s -> counter_ok size (flow_state (for_bits heap n b c s)).
Proof.
  revert b s. induction n as [|n IH]; intros b s I; [exact I|].
  cbn [for_bits]. pose proof (do_bit_counter c b s I) as D.
  destruct (do_bit heap c b s) as [s'|s'|m s']; simpl in D; auto.
Qed.

Lemma while_bytesLeft_counter (fuel : nat) (s : dstate) r s' :
  counter_ok size s ->
  while_bytesLeft heap fuel s = Some (r, s') ->
  counter_ok size s' /\ (r = None -> bytesLeft s' = 0).
Proof.
  revert s. induction fuel as [|fuel IH]; intros s I E.
  - cbn [while_bytesLeft] in E.
    destruct (bytesLeft s =? 0) eqn:Z0; [|discriminate].
    inversion E; subst. split; [exact I|]. intros _. now apply Z.eqb_eq.
  - cbn [while_bytesLeft] in E.
    destruct (bytesLeft s =? 0) eqn:Z0.
    { inversion E; subst. split; [exact I|]. intros _. now apply Z.eqb_eq. }
    destruct (mtf_read8 (d_in s)) as [[c|] f'].
    2:{ inversion E; subst. split; [exact I | discriminate]. }
    pose proof (for_bits_counter 8 0 c (mkD f' (d_out s) (bytesLeft s)) I) as B.
    destruct (for_bits heap 8 0 c _) as [s1|s1|m s1]; simpl in B.
    + exact (IH s1 B E).
    + exact (IH s1 B E).
    + inversion E; subst. split; [exact B | discriminate].
Qed.

End DecoderInvariant.

Lemma mtf_decode_while (heap : Z -> byte) (f : FILE_in) (size : Z) :
  while_bytesLeft heap (S (length (f_rest f))) (mkD f [] (sint32 size))
  = Some (mtf_decode heap f size).
Proof.
  destruct (while_bytesLeft_total heap (S (length (f_rest f)))
              (mkD f [] (sint32 size))) as [r E]; [simpl; lia|].
  rewrite E. f_equal. symmetry. exact (mtf_decode_eq heap f size _ r E).
Qed.

(** X1: however decoding ends, the counter equals the declared size less
    the number of bytes stored, wrapped to [int]; on success it is zero. *)
Theorem decode_counter_invariant (heap : Z -> byte) (f : FILE_in) (size : Z) :
  let r := mtf_decode heap f size in
  bytesLeft (snd r) = sint32 (size - Z.of_nat (length (d_out (snd r))))
  /\ (fst r = None -> bytesLeft (snd r) = 0).
Proof.
  intros r. subst r.
  pose proof (mtf_decode_while heap f size) as E.
  destruct (mtf_decode heap f size) as [r s]. simpl.
  apply (while_bytesLeft_counter heap size _ _ r s) in E; [exact E|].
  unfold counter_ok. simpl. f_equal. lia.
Qed.

(** ** How much the decompressor can produce *)

Lemma mtf_read16_some (f f' : FILE_in) (w : Z) :
  mtf_read16 f = (Some w, f') ->
  0 <= w < 65536 /\ (length (f_rest f') + 2 <= length (f_rest f))%nat.
Proof.
  unfold mtf_read16.
  destruct (fread_cases 2 f) as [[L E] | [L (g & f2 & E & R)]]; rewrite E.
  - rewrite length_firstn, Nat.min_l by exact L. simpl.
    intros H. inversion H; subst. split.
    + pose proof (le_decode_range (firstn 2 (f_rest f))) as Rg.
      rewrite length_firstn, Nat.min_l in Rg by exact L.
      change (256 ^ Z.of_nat 2) with 65536 in Rg. exact Rg.
    + rewrite f_rest_advance, length_skipn. lia.
  - pose proof (fread_short 2 f L) as [G _]. rewrite E in G. simpl in G.
    subst g.
    replace (length (f_rest f) =? 2)%nat with false
      by (symmetry; apply Nat.eqb_neq; lia).
    discriminate.
Qed.

Section Expansion.

Variable heap : Z -> byte.

Lemma do_bit_weight (c : byte) (b : Z) (s : dstate) :
  (weight (flow_state (do_bit heap c b s)) <= weight s)%nat.
Proof.
  unfold weight, do_bit.
  destruct (negb (Z.land (u8 c) (Z.shiftl 1 b) =? 0)).
  - pose proof (mtf_read8_rest (d_in s)) as L.
    destruct (mtf_read8 (d_in s)) as [[x|] f']; cbn [flow_state d_in d_out];
      [|lia].
    rewrite length_app. cbn [length]. lia.
  - destruct (mtf_read16 (d_in s)) as [[w|] f'] eqn:R;
      cbn [flow_state d_in d_out].
    + destruct (mtf_read16_some _ _ _ R) as [Rw L].
      destruct (w =? 0); cbn [flow_state d_in d_out]; [lia|].
      destruct (copy_run_bytes heap (Z.to_nat (Z.shiftr w 10 + 3))
                  (Z.land w 1023) (d_out s) (bytesLeft s))
        as (ext & Ex & Lx & _).
      assert (Rc : 0 <= Z.shiftr w 10 < 64).
      { rewrite Z.shiftr_div_pow2 by lia.
        split; [apply Z.div_pos; lia | apply Z.div_lt_upper_bound; lia]. }
      destruct (copy_run heap _ _ _ _) as [out' left'].
      cbn [fst] in Ex. subst out'.
      destruct (left' <? 0); cbn [flow_state d_in d_out];
        rewrite length_app; lia.
    + pose proof (mtf_read16_rest (d_in s)) as L. rewrite R in L.
      cbn [snd] in L. lia.
Qed.

Lemma for_bits_weight (n : nat) (b : Z) (c : byte) (s : dstate) :
  (weight (flow_state (for_bits heap n b c s)) <= weight s)%nat.
Proof.
  revert b s. induction n as [|n IH]; intros b s; [cbn [for_bits flow_state]; lia|].
  cbn [for_bits]. pose proof (do_bit_weight c b s) as D.
  destruct (do_bit heap c b s) as [s'|s'|m s']; cbn [flow_state] in D |- *;
    try lia.
  specialize (IH (b + 1) s'). lia.
Qed.

Lemma weight_read8 (s : dstate) (c : byte) (f' : FILE_in) :
  mtf_read8 (d_in s) = (Some c, f') ->
  (weight (mkD f' (d_out s) (bytesLeft s)) <= weight s)%nat.
Proof.
  intros E. pose proof (mtf_read8_rest (d_in s)) as L. rewrite E in L.
  unfold weight. cbn [d_in d_out]. lia.
Qed.

Lemma while_bytesLeft_weight (fuel : nat) (s : dstate) r s' :
  while_bytesLeft heap fuel s = Some (r, s') -> (weight s' <= weight s)%nat.
Proof.
  revert s. induction fuel as [|fuel IH]; intros s E;
    cbn [while_bytesLeft] in E.
  - destruct (bytesLeft s =? 0); [|discriminate]. inversion E; subst. lia.
  - destruct (bytesLeft s =? 0); [inversion E; subst; lia|].
    destruct (mtf_read8 (d_in s)) as [[c|] f'] eqn:R.
    2:{ pose proof (mtf_read8_rest (d_in s)) as L. rewrite R in L.
        inversion E; subst. unfold weight. cbn [d_in d_out]. lia. }
    pose proof (weight_read8 s c f' R) as W.
    pose proof (for_bits_weight 8 0 c (mkD f' (d_out s) (bytesLeft s))) as B.
    destruct (for_bits heap 8 0 c _) as [s1|s1|m s1]; cbn [flow_state] in B.
    + specialize (IH s1 E). lia.
    + specialize (IH s1 E). lia.
    + inversion E; subst. lia.
Qed.

(** X2: the decoder stores at most 33 bytes for every byte of input it
    consumes (a two-byte word yields at most 66). *)
Theorem decode_expansion_bound (f : FILE_in) (size : Z) :
  let s := snd (mtf_decode heap f size) in
  (length (d_out s) + 33 * length (f_rest (d_in s))
   <= 33 * length (f_rest f))%nat.
Proof.
  intros s. subst s.
  pose proof (mtf_decode_while heap f size) as E.
  destruct (mtf_decode heap f size) as [r s]. simpl.
  apply while_bytesLeft_weight in E. unfold weight in E.
  cbn [d_in d_out length] in E. exact E.
Qed.

End Expansion.

(** X3: when decoding succeeds on a stream of less than 2^32 / 33 unread
    bytes, exactly the declared number of bytes was stored -- nothing
    behind the buffer -- and the bytes handed to [fwrite] are the decoded
    ones. *)
Theorem decode_success_exact (heap : Z -> byte) (f : FILE_in) (size : Z)
    (s : dstate) :
  0 <= size < 2 ^ 32 ->
  33 * Z.of_nat (length (f_rest f)) < 2 ^ 32 ->
  mtf_decode heap f size = (None, s) ->
  length (d_out s) = Z.to_nat size
  /\ buffer_bytes heap (Z.to_nat size) (d_out s) = d_out s.
Proof.
  intros Rs Rf E.
  pose proof (mtf_decode_while heap f size) as W. rewrite E in W.
  assert (I0 : counter_ok size (mkD f [] (sint32 size)))
    by (unfold counter_ok; simpl; f_equal; lia).
  destruct (while_bytesLeft_counter heap size _ _ None s I0 W) as [I Z0].
  unfold counter_ok in I.
  pose proof (while_bytesLeft_weight heap _ _ _ _ W) as B.
  unfold weight in B. cbn [d_in d_out length] in B.
  rewrite (Z0 eq_refl) in I. symmetry in I. apply sint32_zero_iff in I.
  assert (L : Z.of_nat (length (d_out s)) = size).
  { assert (Hl : Z.of_nat (length (d_out s)) < 2 ^ 32) by lia.
    destruct (Z.le_gt_cases (Z.of_nat (length (d_out s))) size) as [C|C].
    - rewrite Z.mod_small in I by lia. lia.
    - assert (M : (size - Z.of_nat (length (d_out s)) + 2 ^ 32) mod 2 ^ 32 = 0).
      { rewrite <- Zplus_mod_idemp_l, I. reflexivity. }
      rewrite Z.mod_small in M by lia. lia. }
  assert (L' : length (d_out s) = Z.to_nat size) by lia.
  split; [exact L'|]. rewrite <- L'. apply buffer_bytes_exact.
Qed.

Lemma decode_success_exact_witness :
  let f := file_of [x01; x41; x01; x00; x00; x00] in
  let s := snd (mtf_decode heap0 f 4) in
  length (d_out s) = Z.to_nat 4
  /\ buffer_bytes heap0 (Z.to_nat 4) (d_out s) = d_out s.
Proof.
  intros f s.
  apply (decode_success_exact heap0 f 4 s).
  - lia.
  - vm_compute. reflexivity.
  - vm_compute. reflexivity.
Defined.

(** X4: the decoding loop always comes to an end, within one round per
    unread byte of the stream: any larger number of rounds allowed gives
    the same result. *)
Theorem decode_terminates (heap : Z -> byte) (f : FILE_in) (size : Z)
    (fuel : nat) :
  (length (f_rest f) < fuel)%nat ->
  while_bytesLeft heap fuel (mkD f [] (sint32 size))
  = Some (mtf_decode heap f size).
Proof.
  intros L.
  pose proof (mtf_decode_while heap f size) as E.
  apply (while_bytesLeft_more heap _ (fuel - S (length (f_rest f)))) in E.
  replace (S (length (f_rest f)) + (fuel - S (length (f_rest f))))%nat
    with fuel in E by lia.
  exact E.
Qed.

Lemma decode_terminates_witness :
  while_bytesLeft heap0 9 (mkD (file_of [x01; x41; x00; x00]) [] (sint32 1))
  = Some (mtf_decode heap0 (file_of [x01; x41; x00; x00]) 1).
Proof.
  apply (decode_terminates heap0 (file_of [x01; x41; x00; x00]) 1 9).
  vm_compute. lia.
Defined.

(** X5: a back-reference whose offset is zero, or reaches in front of the
    first byte stored, copies memory the decoder never wrote: byte [i] of
    the run is whatever lies [offset] places before its own position in
    the heap. *)
Theorem backref_outside_reads_heap (heap : Z -> byte) (c : byte) (b : Z)
    (s : dstate) (lo hi : byte) (r : list byte) (i : nat) :
  0 <= b < 8 -> Z.testbit (u8 c) b = false ->
  f_rest (d_in s) = lo :: hi :: r ->
  u8 lo + 256 * u8 hi <> 0 ->
  let word := u8 lo + 256 * u8 hi in
  let offset := Z.land word 1023 in
  Z.of_nat i < Z.shiftr word 10 + 3 ->
  offset = 0 \/ Z.of_nat (length (d_out s) + i) < offset ->
  nth (length (d_out s) + i) (d_out (flow_state (do_bit heap c b s))) x00
  = heap (Z.of_nat (length (d_out s) + i) - offset).
Proof.
  intros R T E W word offset Li O.
  destruct (do_bit_backref heap c b s lo hi r R T E W) as (ext & D & L & P).
  cbv zeta in D, L, P. fold word in D, L, P. fold offset in P.
  assert (Lx : (i < length ext)%nat) by lia.
  assert (Eo : d_out (flow_state (do_bit heap c b s)) = d_out s ++ ext).
  { rewrite D. now destruct (_ <? 0). }
  rewrite Eo, app_nth2_plus, (P i Lx). unfold peek.
  rewrite length_app, length_firstn, Nat.min_l by lia.
  destruct O as [O | O].
  - rewrite O, Z.sub_0_r, Z.ltb_irrefl, andb_false_r. reflexivity.
  - replace (0 <=? Z.of_nat (length (d_out s) + i) - offset) with false
      by (symmetry; apply Z.leb_gt; lia).
    reflexivity.
Qed.

Lemma backref_outside_reads_heap_witness :
  nth (0 + 2)
    (d_out (flow_state (do_bit heap0 x00 0 (mkD (file_of [x00; x04]) [] 4))))
    x00
  = heap0 (Z.of_nat (0 + 2) - Z.land (u8 x00 + 256 * u8 x04) 1023).
Proof.
  apply (backref_outside_reads_heap heap0 x00 0
           (mkD (file_of [x00; x04]) [] 4) x00 x04 [] 2).
  - lia.
  - reflexivity.
  - reflexivity.
  - vm_compute. discriminate.
  - vm_compute. reflexivity.
  - left. reflexivity.
Defined.

(** ** What the readers do to the archive stream *)

Lemma stream_steps_refl (f : FILE_in) : stream_steps f f.
Proof. unfold stream_steps. auto. Qed.

Lemma stream_steps_trans (f g h : FILE_in) :
  stream_steps f g -> stream_steps g h -> stream_steps f h.
Proof.
  unfold stream_steps. intros (D1 & F1 & S1 & H1) (D2 & F2 & S2 & H2).
  repeat split; try congruence; auto.
  intros Hf. rewrite H2, H1; congruence.
Qed.

Lemma fread_steps (n : nat) (f : FILE_in) : stream_steps f (snd (fread n f)).
Proof.
  unfold stream_steps, fread. simpl. repeat split.
  - intros E. now rewrite E.
  - intros F. rewrite F, andb_false_r. apply orb_false_r.
Qed.

Lemma fseek_steps (offset : Z) (f : FILE_in) : stream_steps f (fseek offset f).
Proof. unfold stream_steps, fseek. simpl. auto. Qed.

Lemma mtf_read8_steps (f : FILE_in) : stream_steps f (snd (mtf_read8 f)).
Proof.
  unfold mtf_read8. pose proof (fread_steps 1 f) as S.
  now destruct (fread 1 f).
Qed.

Lemma mtf_read16_steps (f : FILE_in) : stream_steps f (snd (mtf_read16 f)).
Proof.
  unfold mtf_read16. pose proof (fread_steps 2 f) as S.
  now destruct (fread 2 f).
Qed.

Lemma mtf_read32_steps (f : FILE_in) (old : Z) :
  stream_steps f (snd (mtf_read32 f old)).
Proof.
  unfold mtf_read32. pose proof (fread_steps 4 f) as S.
  now destruct (fread 4 f).
Qed.

Section StreamFacts.

Variable heap : Z -> byte.

Lemma do_bit_steps (c : byte) (b : Z) (s : dstate) :
  stream_steps (d_in s) (d_in (flow_state (do_bit heap c b s))).
Proof.
  unfold do_bit.
  destruct (negb (Z.land (u8 c) (Z.shiftl 1 b) =? 0)).
  - pose proof (mtf_read8_steps (d_in s)) as S.
    destruct (mtf_read8 (d_in s)) as [[x|] f']; exact S.
  - pose proof (mtf_read16_steps (d_in s)) as S.
    destruct (mtf_read16 (d_in s)) as [[w|] f']; [|exact S].
    destruct (w =? 0); [exact S|].
    destruct (copy_run heap _ _ _ _) as [out' left'].
    destruct (left' <? 0); exact S.
Qed.

Lemma for_bits_steps (n : nat) (b : Z) (c : byte) (s : dstate) :
  stream_steps (d_in s) (d_in (flow_state (for_bits heap n b c s))).
Proof.
  revert b s. induction n as [|n IH]; intros b s; [apply stream_steps_refl|].
  cbn [for_bits]. pose proof (do_bit_steps c b s) as D.
  destruct (do_bit heap c b s) as [s'|s'|m s']; cbn [flow_state] in D |- *;
    try exact D.
  exact (stream_steps_trans _ _ _ D (IH (b + 1) s')).
Qed.

Lemma while_bytesLeft_steps (fuel : nat) (s : dstate) r s' :
  while_bytesLeft heap fuel s = Some (r, s') ->
  stream_steps (d_in s) (d_in s').
Proof.
  revert s. induction fuel as [|fuel IH]; intros s E;
    cbn [while_bytesLeft] in E.
  - destruct (bytesLeft s =? 0); [|discriminate].
    inversion E; subst. apply stream_steps_refl.
  - destruct (bytesLeft s =? 0);
      [inversion E; subst; apply stream_steps_refl|].
    pose proof (mtf_read8_steps (d_in s)) as R.
    destruct (mtf_read8 (d_in s)) as [[c|] f']; cbn [snd] in R.
    2:{ inversion E; subst. exact R. }
    pose proof (for_bits_steps 8 0 c (mkD f' (d_out s) (bytesLeft s))) as B.
    destruct (for_bits heap 8 0 c _) as [s1|s1|m s1];
      cbn [flow_state d_in] in B.
    + exact (stream_steps_trans _ _ _ R
               (stream_steps_trans _ _ _ B (IH s1 E))).
    + exact (stream_steps_trans _ _ _ R
               (stream_steps_trans _ _ _ B (IH s1 E))).
    + inversion E; subst. exact (stream_steps_trans _ _ _ R B).
Qed.

Lemma mtf_decode_steps (f : FILE_in) (size : Z) :
  stream_steps f (d_in (snd (mtf_decode heap f size))).
Proof.
  pose proof (mtf_decode_while heap f size) as E.
  destruct (mtf_decode heap f size) as [r s].
  exact (while_bytesLeft_steps _ _ _ _ E).
Qed.

End StreamFacts.

Section PayloadFacts.

Variable heap : Z -> byte.
Context {FS : Type} `{FileSystem FS}.

Lemma mtf_decode_messages (f : FILE_in) (size : Z) (m : mtf_msg) (s : dstate) :
  mtf_decode heap f size = (Some m, s) ->
  m = MsgRead8 \/ m = MsgRead16 \/ m = MsgSizeMismatch.
Proof.
  intros E. pose proof (mtf_decode_while heap f size) as W. rewrite E in W.
  clear E. revert W. generalize (mkD f [] (sint32 size)).
  generalize (S (length (f_rest f))). intros fuel.
  induction fuel as [|fuel IH]; intros s0 W; cbn [while_bytesLeft] in W.
  - destruct (bytesLeft s0 =? 0); discriminate.
  - destruct (bytesLeft s0 =? 0); [discriminate|].
    destruct (mtf_read8 (d_in s0)) as [[c|] f'].
    2:{ inversion W; subst. auto. }
    assert (B : forall n b s1 m1 s2,
               for_bits heap n b c s1 = Bail m1 s2 ->
               m1 = MsgRead8 \/ m1 = MsgRead16 \/ m1 = MsgSizeMismatch).
    { clear. induction n as [|n IHn]; intros b s1 m1 s2 E; [discriminate|].
      cbn [for_bits] in E.
      destruct (do_bit heap c b s1) as [s'|s'|m' s'] eqn:D;
        [eauto | discriminate |].
      inversion E; subst. unfold do_bit in D.
      destruct (negb _).
      - destruct (mtf_read8 (d_in s1)) as [[x|] g]; inversion D; auto.
      - destruct (mtf_read16 (d_in s1)) as [[w|] g]; [|inversion D; auto].
        destruct (w =? 0); [discriminate|].
        destruct (copy_run heap _ _ _ _) as [o l].
        destruct (l <? 0); inversion D; auto. }
    destruct (for_bits heap 8 0 c _) as [s1|s1|m1 s1] eqn:Fb; eauto.
    inversion W; subst. eauto.
Qed.

Lemma mtf_decompress_write_file_steps (fs : FS) (fileOut : path)
    (f : FILE_in) (size : Z) :
  stream_steps f (snd (mtf_decompress_write_file heap fs fileOut f size)).
Proof.
  unfold mtf_decompress_write_file.
  pose proof (mtf_decode_steps heap f size) as S.
  destruct (mtf_decode heap f size) as [[m|] s]; [exact S|].
  destruct (fs_fwrite fs fileOut _) as [fs' n].
  destruct (n =? Z.to_nat size)%nat; exact S.
Qed.

Lemma mtf_write_file_steps (fs : FS) (fileOut : path) (f : FILE_in)
    (size offset : Z) :
  stream_steps f (snd (mtf_write_file fs fileOut f size offset)).
Proof.
  unfold mtf_write_file.
  pose proof (fread_steps (Z.to_nat size) (fseek offset f)) as S.
  pose proof (stream_steps_trans _ _ _ (fseek_steps offset f) S) as S'.
  destruct (fread (Z.to_nat size) (fseek offset f)) as [buf f'].
  destruct (negb _); [exact S'|].
  destruct (fs_fwrite fs fileOut buf) as [fs' n].
  destruct (negb _); exact S'.
Qed.

(** A payload routine that fails before its [fwrite] leaves the file
    system as it found it. *)
Lemma mtf_decompress_write_file_failed (fs fs' : FS) (fileOut : path)
    (f f' : FILE_in) (size : Z) (m : mtf_msg) :
  mtf_decompress_write_file heap fs fileOut f size = (Failure m, fs', f') ->
  (m = MsgRead8 \/ m = MsgRead16 \/ m = MsgSizeMismatch) /\ fs' = fs
  \/ m = MsgWriteDecompressed
     /\ exists bytes,
         length bytes = Z.to_nat size
         /\ fs' = fst (fs_fwrite fs fileOut bytes)
         /\ snd (fs_fwrite fs fileOut bytes) <> length bytes.
Proof.
  unfold mtf_decompress_write_file.
  destruct (mtf_decode heap f size) as [[m'|] s] eqn:D.
  - intros E. inversion E; subst. left.
    split; [exact (mtf_decode_messages _ _ _ _ D) | reflexivity].
  - destruct (fs_fwrite fs fileOut (buffer_bytes heap (Z.to_nat size) (d_out s)))
      as [fs1 n] eqn:W.
    destruct (n =? Z.to_nat size)%nat eqn:C; [discriminate|].
    intros E. inversion E; subst. right. split; [reflexivity|].
    exists (buffer_bytes heap (Z.to_nat size) (d_out s)).
    rewrite W, buffer_bytes_length. simpl.
    apply Nat.eqb_neq in C. auto.
Qed.

Lemma mtf_write_file_failed (fs fs' : FS) (fileOut : path) (f f' : FILE_in)
    (size offset : Z) (m : mtf_msg) :
  mtf_write_file fs fileOut f size offset = (Failure m, fs', f') ->
  m = MsgRawRead /\ fs' = fs
  \/ m = MsgRawWrite
     /\ exists bytes,
         length bytes = Z.to_nat size
         /\ fs' = fst (fs_fwrite fs fileOut bytes)
         /\ snd (fs_fwrite fs fileOut bytes) <> length bytes.
Proof.
  unfold mtf_write_file.
  destruct (fread (Z.to_nat size) (fseek offset f)) as [buf g].
  destruct (length buf =? Z.to_nat size)%nat eqn:L; simpl.
  - destruct (fs_fwrite fs fileOut buf) as [fs1 n] eqn:W.
    destruct (n =? Z.to_nat size)%nat eqn:C; simpl; [discriminate|].
    intros E. inversion E; subst. right. split; [reflexivity|].
    exists buf. rewrite W. simpl.
    apply Nat.eqb_eq in L. apply Nat.eqb_neq in C. repeat split; auto. lia.
  - intros E. inversion E; subst. auto.
Qed.

End PayloadFacts.

Lemma mtf_read_compressed_header_steps (f : FILE_in) (offset : Z)
    (local : list byte) :
  stream_steps f (snd (mtf_read_compressed_header f offset local)).
Proof.
  unfold mtf_read_compressed_header.
  pose proof (fread_steps 12 (fseek offset f)) as S.
  pose proof (stream_steps_trans _ _ _ (fseek_steps offset f) S) as S'.
  now destruct (fread 12 (fseek offset f)).
Qed.

Lemma mtf_read_compressed_header_ok (f : FILE_in) (offset : Z)
    (local : list byte) :
  fst (fst (mtf_read_compressed_header f offset local))
  = negb (f_error (snd (mtf_read_compressed_header f offset local))).
Proof.
  unfold mtf_read_compressed_header.
  now destruct (fread 12 (fseek offset f)).
Qed.

Section RoundStreams.

Variable heap : nat -> Z -> byte.
Variable stack : nat -> list byte.
Context {FS : Type} `{FileSystem FS}.

Lemma extract_entry_steps (e : nat) (destPath : list byte) (fs : FS)
    (f : FILE_in) (entry : mtf_file_entry_t) :
  stream_steps f (round_file (extract_entry heap stack e destPath fs f entry)).
Proof.
  unfold extract_entry.
  pose proof (mtf_read_compressed_header_steps f (dataOffset entry) (stack e))
    as Sh.
  destruct (mtf_read_compressed_header f (dataOffset entry) (stack e))
    as [[ok h] f1]. cbn [snd] in Sh.
  destruct (negb ok); [exact Sh|].
  destruct (mtf_make_path fs _) as [st fs1].
  destruct (fs_fopen_wb fs1 _) as [fs2|]; [|exact Sh].
  destruct (mtf_is_compressed h).
  - pose proof (mtf_decompress_write_file_steps (heap e) fs2
                  (mtf_fix_filepath (snprintf_path destPath (name_of entry)))
                  f1 (decompressedSize entry)) as Sp.
    destruct (mtf_decompress_write_file _ _ _ _ _) as [[st' fs3] f2].
    exact (stream_steps_trans _ _ _ Sh Sp).
  - pose proof (mtf_write_file_steps fs2
                  (mtf_fix_filepath (snprintf_path destPath (name_of entry)))
                  f1 (decompressedSize entry) (dataOffset entry)) as Sp.
    destruct (mtf_write_file _ _ _ _ _) as [[st' fs3] f2].
    exact (stream_steps_trans _ _ _ Sh Sp).
Qed.

(** With the error indicator set, the header probe reports failure. *)
Lemma extract_entry_after_error (e : nat) (destPath : list byte) (fs : FS)
    (f : FILE_in) (entry : mtf_file_entry_t) :
  f_error f = true ->
  exists f1,
    extract_entry heap stack e destPath fs f entry = Fatal MsgHeader fs f1
    /\ f_error f1 = true.
Proof.
  intros Er. unfold extract_entry.
  pose proof (mtf_read_compressed_header_steps f (dataOffset entry) (stack e))
    as (_ & _ & S & _).
  pose proof (mtf_read_compressed_header_ok f (dataOffset entry) (stack e)) as O.
  destruct (mtf_read_compressed_header f (dataOffset entry) (stack e))
    as [[ok h] f1]. cbn [fst snd] in S, O.
  rewrite (S Er) in O. subst ok. exists f1. auto.
Qed.

(** On a healthy stream the header probe reports success and the stream
    stays healthy. *)
Lemma extract_entry_healthy (e : nat) (destPath : list byte) (fs : FS)
    (f : FILE_in) (entry : mtf_file_entry_t) :
  healthy f ->
  healthy (round_file (extract_entry heap stack e destPath fs f entry))
  /\ forall m fs' f',
      extract_entry heap stack e destPath fs f entry = Fatal m fs' f' ->
      m = MsgCreateOutput.
Proof.
  intros [Hf He].
  pose proof (extract_entry_steps e destPath fs f entry) as (_ & F & _ & K).
  split; [split; [congruence | rewrite (K Hf); exact He]|].
  unfold extract_entry.
  pose proof (mtf_read_compressed_header_steps f (dataOffset entry) (stack e))
    as (_ & _ & _ & Kh).
  pose proof (mtf_read_compressed_header_ok f (dataOffset entry) (stack e)) as O.
  destruct (mtf_read_compressed_header f (dataOffset entry) (stack e))
    as [[ok h] f1]. cbn [fst snd] in Kh, O.
  rewrite (Kh Hf), He in O. subst ok. cbn [negb].
  destruct (mtf_make_path fs _) as [st fs1].
  destruct (fs_fopen_wb fs1 _) as [fs2|].
  - destruct (if mtf_is_compressed h then _ else _) as [[st' fs3] f2].
    discriminate.
  - intros m fs' f' E. now inversion E.
Qed.

Lemma extract_loop_healthy (es : list mtf_file_entry_t) :
  forall e destPath max fs f c,
    healthy f ->
    match extract_loop heap stack es e destPath max fs f c with
    | inl (m, _, _) => m = MsgCreateOutput
    | inr x => healthy (exit_file x)
    end.
Proof.
  induction es as [|entry es IH]; intros e destPath max fs f c Hh.
  - exact Hh.
  - cbn [extract_loop].
    destruct (extract_entry_healthy e destPath fs f entry Hh) as [Hr Hm].
    destruct (extract_entry heap stack e destPath fs f entry)
      as [m fs' f' | [|] fs' f']; cbn [round_file] in Hr.
    + exact (Hm m fs' f' eq_refl).
    + destruct ((0 <? max) && (sint32 (c + 1) =? max)); [exact Hr|].
      apply IH, Hr.
    + apply IH, Hr.
Qed.

End RoundStreams.

(** X6: a round whose payload routine fails leaves the output file as
    [fopen] created it, empty, unless the failure is that of the [fwrite]
    itself, which then accepted fewer bytes than it was given. *)
Theorem failed_round_leaves_empty_file (FS : Type) (H : FileSystem FS)
    (heap : nat -> Z -> byte) (stack : nat -> list byte) (e : nat)
    (destPath : list byte) (fs fs2 fs3 : FS) (f f1 f3 : FILE_in)
    (entry : mtf_file_entry_t) (h : mtf_compressed_header_t) :
  mtf_read_compressed_header f (dataOffset entry) (stack e) = (true, h, f1) ->
  let p := mtf_fix_filepath (snprintf_path destPath (name_of entry)) in
  fs_fopen_wb (snd (mtf_make_path fs p)) p = Some fs2 ->
  extract_entry heap stack e destPath fs f entry = Done false fs3 f3 ->
  fs3 = fs2
  \/ exists bytes,
      length bytes = Z.to_nat (decompressedSize entry)
      /\ fs3 = fst (fs_fwrite fs2 p bytes)
      /\ snd (fs_fwrite fs2 p bytes) <> length bytes.
Proof.
  intros Hh p O E.
  rewrite (extract_entry_payload heap stack e destPath fs fs2 f f1 entry h Hh O)
    in E.
  fold p in E.
  destruct (mtf_is_compressed h).
  - destruct (mtf_decompress_write_file (heap e) fs2 p f1 (decompressedSize entry))
      as [[st fs'] f'] eqn:P.
    destruct st as [|m]; [discriminate|]. inversion E; subst.
    destruct (mtf_decompress_write_file_failed _ _ _ _ _ _ _ _ P)
      as [[_ ->] | [_ X]]; auto.
  - destruct (mtf_write_file fs2 p f1 (decompressedSize entry) (dataOffset entry))
      as [[st fs'] f'] eqn:P.
    destruct st as [|m]; [discriminate|]. inversion E; subst.
    destruct (mtf_write_file_failed _ _ _ _ _ _ _ _ P) as [[_ ->] | [_ X]]; auto.
Qed.

Lemma failed_round_leaves_empty_file_witness :
  let entry := nth 2 Demo.entries entry_zero in
  let p := mtf_fix_filepath (snprintf_path Demo.out (name_of entry)) in
  let fs2 := Toy.mkFs [(Demo.out, Toy.Dir); (p, Toy.File [])] 100 in
  let R := extract_entry Demo.heaps0 Demo.stack0 2 Demo.out Demo.disk
             Demo.stream entry in
  R = Done false (round_fs R) (round_file R)
  /\ (round_fs R = fs2
      \/ exists bytes,
          length bytes = Z.to_nat (decompressedSize entry)
          /\ round_fs R = fst (fs_fwrite fs2 p bytes)
          /\ snd (fs_fwrite fs2 p bytes) <> length bytes).
Proof.
  intros entry p fs2 R.
  pose (X := mtf_read_compressed_header Demo.stream (dataOffset entry)
               (Demo.stack0 2)).
  assert (E : R = Done false (round_fs R) (round_file R))
    by (vm_compute; reflexivity).
  split; [exact E|].
  apply (failed_round_leaves_empty_file Toy.fs Toy.toy_fs Demo.heaps0
           Demo.stack0 2 Demo.out Demo.disk fs2 (round_fs R) Demo.stream (snd X)
           (round_file R) entry (snd (fst X))).
  - vm_compute. reflexivity.
  - vm_compute. reflexivity.
  - exact E.
Defined.

(** X7: the error indicator of the archive stream is never cleared, so an
    entry that was skipped because its payload read hit a device error
    makes the header probe of the following entry fail, and the batch
    returns there. *)
Theorem device_error_aborts_next_round (FS : Type) (H : FileSystem FS)
    (heap : nat -> Z -> byte) (stack : nat -> list byte) (e : nat)
    (destPath : list byte) (max c : Z) (fs fs' : FS) (f f' : FILE_in)
    (entry next : mtf_file_entry_t) (es : list mtf_file_entry_t) :
  extract_entry heap stack e destPath fs f entry = Done false fs' f' ->
  f_error f' = true ->
  exists f1,
    extract_loop heap stack (entry :: next :: es) e destPath max fs f c
    = inl (MsgHeader, fs', f1).
Proof.
  intros E Er.
  destruct (extract_entry_after_error heap stack (S e) destPath fs' f' next Er)
    as (f1 & F & _).
  exists f1. cbn [extract_loop]. now rewrite E, F.
Qed.

Lemma device_error_aborts_next_round_witness :
  exists fs' f1,
    extract_loop Demo.heaps0 Demo.stack0
      (entry_too_long :: Demo.entry_at_end :: []) 0 Demo.out MTF_EXTRACT_ALL
      Demo.disk Demo.faulty_stream 0
    = inl (MsgHeader, fs', f1).
Proof.
  pose (R := extract_entry Demo.heaps0 Demo.stack0 0 Demo.out Demo.disk
               Demo.faulty_stream entry_too_long).
  destruct (device_error_aborts_next_round Toy.fs Toy.toy_fs Demo.heaps0
              Demo.stack0 0 Demo.out MTF_EXTRACT_ALL 0 Demo.disk
              (round_fs R)
              Demo.faulty_stream (round_file R) entry_too_long
              Demo.entry_at_end [])
    as (f1 & E).
  - vm_compute. reflexivity.
  - vm_compute. reflexivity.
  - eexists. exists f1. exact E.
Defined.

(** ** Loading and the stream *)

Lemma read_entry_steps (f : FILE_in) : stream_steps f (snd (read_entry f)).
Proof.
  unfold read_entry.
  pose proof (mtf_read32_steps f 0) as S1.
  destruct (mtf_read32 f 0) as [[ok len] f1]. cbn [snd] in S1.
  destruct (negb ok); [exact S1|].
  pose proof (fread_steps (Z.to_nat len) f1) as S2.
  destruct (fread (Z.to_nat len) f1) as [got f2]. cbn [snd] in S2.
  pose proof (mtf_read32_steps f2 0) as S3.
  destruct (mtf_read32 f2 0) as [[ok3 off] f3]. cbn [snd] in S3.
  pose proof (stream_steps_trans _ _ _ S1 (stream_steps_trans _ _ _ S2 S3)) as S13.
  destruct (negb ok3); [exact S13|].
  pose proof (mtf_read32_steps f3 0) as S4.
  destruct (mtf_read32 f3 0) as [[ok4 size] f4]. cbn [snd] in S4.
  destruct (negb ok4); exact (stream_steps_trans _ _ _ S13 S4).
Qed.

Lemma read_entries_steps (n : nat) :
  forall f done, stream_steps f (snd (read_entries n f done)).
Proof.
  induction n as [|n IH]; intros f done; [apply stream_steps_refl|].
  cbn [read_entries]. pose proof (read_entry_steps f) as S.
  destruct (read_entry f) as [[[|m] entry] f']; cbn [snd] in S |- *.
  - exact (stream_steps_trans _ _ _ S (IH f' _)).
  - exact S.
Qed.

Lemma read_entries_named (n : nat) :
  forall f done t f',
    read_entries n f done = (Success, t, f') ->
    Forall (fun e => filename e <> None) done ->
    Forall (fun e => filename e <> None) t.
Proof.
  induction n as [|n IH]; intros f done t f' R D.
  - simpl in R. now inversion R; subst.
  - cbn [read_entries] in R.
    destruct (read_entry f) as [[[|m] entry] f1] eqn:Re; [|discriminate].
    apply (IH _ _ _ _ R). apply Forall_app. split; [exact D|].
    constructor; [|constructor].
    pose proof (read_entry_spec f) as S. cbv zeta in S.
    destruct ((4 <=? length (f_rest f))%nat && _).
    + destruct S as (f2 & E & _). rewrite E in Re.
      inversion Re; subst. discriminate.
    + destruct S as (m & en & f2 & E & _). rewrite E in Re.
      discriminate.
Qed.

(** The handle a successful load leaves. *)
Lemma mtf_file_open_handle (f : FILE_in) (mtf : mtf_file_t)
    (freed : list release) :
  mtf_file_open (Some f) = (Success, mtf, freed) ->
  exists f2 entries,
    osFileHandle mtf = Some f2 /\ fileEntries mtf = Some entries
    /\ stream_steps f f2
    /\ length entries = Z.to_nat (fileEntryCount mtf)
    /\ 0 < fileEntryCount mtf < 2 ^ 32
    /\ Forall (fun e => filename e <> None) entries.
Proof.
  intros E.
  pose proof (mtf_file_open_spec f) as S. cbv zeta in S.
  pose proof (le_decode_range (firstn 4 (f_rest f))) as Rg.
  assert (L4 : (length (firstn 4 (f_rest f)) <= 4)%nat)
    by (rewrite length_firstn; lia).
  assert (Rg' : le_decode (firstn 4 (f_rest f)) < 2 ^ 32).
  { apply Z.lt_le_trans with (1 := proj2 Rg).
    change (2 ^ 32) with (256 ^ 4). apply Z.pow_le_mono_r; lia. }
  destruct (length (f_rest f) <? 4)%nat.
  { destruct S as [v E']. rewrite E' in E. discriminate. }
  destruct (le_decode (firstn 4 (f_rest f)) =? 0) eqn:C0.
  { rewrite S in E. discriminate. }
  apply Z.eqb_neq in C0.
  destruct (table_complete _ _).
  2:{ destruct S as (m & arr & f2 & _ & _ & E'). rewrite E' in E. discriminate. }
  destruct S as (table & f2 & R & L & E'). rewrite E' in E.
  pose proof (read_entries_steps (Z.to_nat (le_decode (firstn 4 (f_rest f))))
                (advance 4 f) []) as St.
  rewrite R in St. cbn [snd] in St.
  pose proof (read_entries_named _ _ _ _ _ R (Forall_nil _)) as Nm.
  assert (M : mtf = mkMtf (Some f2) (Some (qsort mtf_sort_by_filename table))
                      (le_decode (firstn 4 (f_rest f)))) by congruence.
  subst mtf. cbn [osFileHandle fileEntries fileEntryCount].
  exists f2, (qsort mtf_sort_by_filename table).
  split; [reflexivity|]. split; [reflexivity|]. split; [exact St|].
  split.
  { rewrite <- L. symmetry. apply Permutation_length, qsort_perm. }
  split; [lia|].
  apply Forall_forall. intros e I.
  apply (Permutation_in _ (Permutation_sym (qsort_perm _ mtf_sort_by_filename table))) in I.
  rewrite Forall_forall in Nm. exact (Nm e I).
Qed.

(** X8: on an archive stream without device errors the header probe never
    fails, wherever the data offsets of the table point: once the table is
    loaded, a batch whose assertions hold either returns true, or returns
    false because an output file could not be created. *)
Theorem healthy_batch_outcomes (FS : Type) (H : FileSystem FS)
    (heap : nat -> Z -> byte) (stack : nat -> list byte) (f : FILE_in)
    (destPath : list byte) (max : Z) (fs : FS) (mtf : mtf_file_t)
    (freed : list release) :
  healthy f ->
  batch_asserts (Some f) destPath ->
  mtf_file_open (Some f) = (Success, mtf, freed) ->
  let r := mtf_file_extract_batch heap stack (Some f) destPath max fs in
  batch_ok r = true \/ batch_error r = Some MsgCreateOutput.
Proof.
  intros [Hf He] _ O r.
  destruct (mtf_file_open_handle f mtf freed O)
    as (f2 & entries & Eh & Ee & (_ & F & _ & K) & _ & _ & _).
  assert (H2 : healthy f2) by (split; [congruence | rewrite (K Hf); exact He]).
  pose proof (mtf_file_extract_batch_result heap stack (Some f) destPath max fs
                mtf freed f2 entries O Eh Ee) as B.
  cbv zeta in B. fold r in B.
  pose proof (extract_loop_healthy heap stack
                (firstn (Z.to_nat (fileEntryCount mtf)) entries)
                0 destPath max fs f2 0 H2) as L.
  destruct (extract_loop heap stack _ 0 destPath max fs f2 0)
    as [[[m fs'] f'] | x].
  - right. subst m. tauto.
  - left. tauto.
Qed.

Lemma healthy_batch_outcomes_witness :
  let r := mtf_file_extract_batch Demo.heaps0 Demo.stack0
             (Some (file_of Demo.archive)) Demo.out 3 Demo.disk in
  batch_ok r = true \/ batch_error r = Some MsgCreateOutput.
Proof.
  apply (healthy_batch_outcomes Toy.fs Toy.toy_fs Demo.heaps0 Demo.stack0
           (file_of Demo.archive) Demo.out 3 Demo.disk Demo.opened
           (snd (mtf_file_open (Some (file_of Demo.archive))))).
  - split; reflexivity.
  - split; [discriminate|]. vm_compute. repeat constructor; discriminate.
  - vm_compute. reflexivity.
Defined.

(** X9: when the data offset of an entry lies at or behind the end of the
    archive, the header probe of a healthy stream still reports success
    and the header it returns is the caller's uninitialised memory,
    untouched: those bytes decide whether the entry counts as
    compressed. *)
Theorem header_probe_past_end (f : FILE_in) (offset : Z) (local : list byte) :
  healthy f ->
  (length (f_data f) <= Z.to_nat offset)%nat ->
  exists f1,
    mtf_read_compressed_header f offset local
    = (true, header_of_bytes local, f1)
    /\ f_rest f1 = [].
Proof.
  intros [Hf He] L. unfold mtf_read_compressed_header, fread.
  rewrite f_rest_fseek, skipn_all2 by exact L.
  cbn [firstn length overlay skipn app fseek f_error f_faulty f_data f_pos].
  rewrite He, Hf. eexists. split; [reflexivity|].
  unfold f_rest. cbn [f_pos f_data]. apply skipn_all2. lia.
Qed.

Lemma header_probe_past_end_witness :
  exists f1,
    mtf_read_compressed_header (file_of Demo.archive) 114
      (xae :: xbe :: repeat x00 10)
    = (true, header_of_bytes (xae :: xbe :: repeat x00 10), f1)
    /\ f_rest f1 = [].
Proof.
  apply (header_probe_past_end (file_of Demo.archive) 114).
  - split; reflexivity.
  - vm_compute. lia.
Defined.

(** ** Output paths *)

Lemma fix_char_plain (c : byte) :
  c <> x00 ->
  0 < u8 (fix_char c) < 128 /\ fix_char c <> x5c
  /\ fix_char (fix_char c) = fix_char c.
Proof.
  intros N. destruct c; try (exfalso; apply N; reflexivity);
    vm_compute; (split; [split; reflexivity|]); (split; [discriminate|]);
    reflexivity.
Qed.

Lemma c_str_no_nul (p : list byte) : ~ In x00 (c_str p).
Proof.
  induction p as [|c p IH]; [intros []|].
  cbn [c_str]. destruct (Byte.eqb c x00) eqn:E; [intros []|].
  apply byte_eqb_neq in E. intros [I|I]; [now apply E | now apply IH].
Qed.

Lemma c_str_id (p : list byte) : ~ In x00 p -> c_str p = p.
Proof.
  induction p as [|c p IH]; intros N; [reflexivity|].
  cbn [c_str]. destruct (Byte.eqb c x00) eqn:E.
  - apply byte_eqb_eq in E. subst c. destruct N. now left.
  - f_equal. apply IH. intros I. apply N. now right.
Qed.

Lemma c_str_idem (p : list byte) : c_str (c_str p) = c_str p.
Proof. apply c_str_id, c_str_no_nul. Qed.

Lemma mtf_fix_filepath_length (p : list byte) :
  length (mtf_fix_filepath p) = length p.
Proof.
  induction p as [|c p IH]; [reflexivity|].
  cbn [mtf_fix_filepath]. destruct (Byte.eqb c x00); [reflexivity|].
  cbn [length]. now rewrite IH.
Qed.

Lemma mtf_fix_filepath_tail (p : list byte) :
  skipn (length (c_str p)) (mtf_fix_filepath p) = skipn (length (c_str p)) p.
Proof.
  induction p as [|c p IH]; [reflexivity|].
  cbn [mtf_fix_filepath c_str]. destruct (Byte.eqb c x00); [reflexivity|].
  cbn [length skipn]. exact IH.
Qed.

Lemma mtf_fix_filepath_idem (p : list byte) :
  mtf_fix_filepath (mtf_fix_filepath p) = mtf_fix_filepath p.
Proof.
  induction p as [|c p IH]; [reflexivity|].
  cbn [mtf_fix_filepath]. destruct (Byte.eqb c x00) eqn:E.
  - cbn [mtf_fix_filepath]. now rewrite E.
  - rewrite not_ascii_iff. fold (fix_char c).
    apply byte_eqb_neq in E.
    destruct (fix_char_plain c E) as (_ & _ & I).
    pose proof (fix_char_not_nul c E) as N. apply byte_eqb_neq in N.
    cbn [mtf_fix_filepath]. rewrite N, not_ascii_iff.
    fold (fix_char (fix_char c)). now rewrite I, IH.
Qed.

(** X10: [mtf_fix_filepath] rewrites the string in place: the buffer keeps
    its length and everything from the terminator on, every character of
    the resulting string is plain ASCII (1..127) and none is a backslash,
    and fixing a fixed path changes nothing. *)
Theorem mtf_fix_filepath_plain_ascii (p : list byte) :
  length (mtf_fix_filepath p) = length p
  /\ length (c_str (mtf_fix_filepath p)) = length (c_str p)
  /\ skipn (length (c_str p)) (mtf_fix_filepath p)
     = skipn (length (c_str p)) p
  /\ (forall c, In c (c_str (mtf_fix_filepath p)) ->
                0 < u8 c < 128 /\ c <> x5c)
  /\ mtf_fix_filepath (mtf_fix_filepath p) = mtf_fix_filepath p.
Proof.
  split; [apply mtf_fix_filepath_length|].
  split; [rewrite mtf_fix_filepath_map; apply length_map|].
  split; [apply mtf_fix_filepath_tail|].
  split; [|apply mtf_fix_filepath_idem].
  intros c I. rewrite mtf_fix_filepath_map in I.
  apply in_map_iff in I. destruct I as (d & <- & I).
  assert (N : d <> x00) by (intros ->; exact (c_str_no_nul p I)).
  destruct (fix_char_plain d N) as (R & B & _). auto.
Qed.

Lemma In_firstn (A : Type) (n : nat) (l : list A) (x : A) :
  In x (firstn n l) -> In x l.
Proof.
  intros I. rewrite <- (firstn_skipn n l). apply in_or_app. now left.
Qed.

Lemma snprintf_path_no_nul (destPath name : list byte) :
  ~ In x00 (snprintf_path destPath name).
Proof.
  unfold snprintf_path. intros I. apply In_firstn in I.
  apply in_app_or in I. destruct I as [I|I]; [exact (c_str_no_nul _ I)|].
  apply in_app_or in I. destruct I as [[I|[]]|I]; [discriminate|].
  exact (c_str_no_nul _ I).
Qed.

(** X11: the path a round of the batch builds is the string
    [destPath/name] cut to [MTF_MAX_PATH_LEN - 1] characters and then
    fixed, whatever the lengths of root and archive name: the assertion
    [strlen(path) < MTF_MAX_PATH_LEN] of [mtf_make_path] always holds
    there, and a name too long for the buffer is cut, not refused. *)
Theorem extraction_path_fits (destPath name : list byte) :
  let p := mtf_fix_filepath (snprintf_path destPath name) in
  c_str p = p
  /\ p = map fix_char
           (firstn (MTF_MAX_PATH_LEN - 1) (c_str destPath ++ x2f :: c_str name))
  /\ (length p < MTF_MAX_PATH_LEN)%nat
  /\ length p
     = Nat.min (MTF_MAX_PATH_LEN - 1)
         (length (c_str destPath) + 1 + length (c_str name)).
Proof.
  intros p.
  assert (E : c_str p = map fix_char (snprintf_path destPath name)).
  { unfold p. rewrite mtf_fix_filepath_map.
    now rewrite (c_str_id _ (snprintf_path_no_nul destPath name)). }
  assert (L : length p = length (snprintf_path destPath name))
    by apply mtf_fix_filepath_length.
  assert (P : c_str p = p).
  { apply c_str_id. intros I.
    assert (J : In x00 (c_str p)).
    { rewrite E. unfold p in I.
      clear - I. revert I.
      generalize (snprintf_path_no_nul destPath name).
      induction (snprintf_path destPath name) as [|c l IH]; intros N I.
      - destruct I.
      - cbn [mtf_fix_filepath] in I.
        destruct (Byte.eqb c x00) eqn:Z0.
        + apply byte_eqb_eq in Z0. subst c. destruct N. now left.
        + rewrite not_ascii_iff in I. fold (fix_char c) in I.
          destruct I as [I|I]; [left; exact I|].
          right. apply IH; [|exact I]. intros K. apply N. now right. }
    exact (c_str_no_nul _ J). }
  split; [exact P|].
  split; [rewrite <- P; exact E|].
  unfold snprintf_path in L. rewrite length_firstn in L.
  rewrite length_app in L. cbn [length app] in L.
  unfold MTF_MAX_PATH_LEN in *. split; lia.
Qed.

Section PathIdempotence.

Context {FS : Type} `{FileSystem FS}.

Lemma make_directories_existing (ds : list path) (fs : FS) :
  (forall d, In d ds -> fs_stat fs d = Some S_IFDIR) ->
  make_directories fs ds = (Success, fs).
Proof.
  induction ds as [|d ds IH]; intros A; [reflexivity|].
  cbn [make_directories].
  destruct (mtf_make_directory_cases fs d) as (D & _ & _).
  rewrite (D (A d (or_introl eq_refl))).
  apply IH. intros d' I. apply A. now right.
Qed.

Lemma dir_components_no_separator (rest before : list byte) :
  (forall c, In c (c_str rest) -> c <> x2f /\ c <> x5c) ->
  dir_components before rest = [].
Proof.
  revert before. induction rest as [|c rest IH]; intros before A; [reflexivity|].
  cbn [dir_components]. cbn [c_str] in A.
  destruct (Byte.eqb c x00) eqn:Z0; [reflexivity|].
  destruct (A c (or_introl eq_refl)) as [N1 N2].
  apply byte_eqb_neq in N1, N2. rewrite N1, N2. cbn [orb].
  apply IH. intros d I. apply A. now right.
Qed.

End PathIdempotence.

(** X12: [mtf_make_path] has no effect on a path whose directories exist:
    on a file system where a directory made by [mkdir] is seen by [stat]
    and stays one, a call that succeeded can be repeated and succeeds
    without changing anything; and a path without a separator never
    reaches [stat] or [mkdir]. *)
Theorem mtf_make_path_idempotent (FS : Type) (H : FileSystem FS)
    (fs fs' : FS) (p : list byte) :
  (forall (t t' : FS) d, fs_mkdir t d = Some t' -> fs_stat t' d = Some S_IFDIR) ->
  (forall (t t' : FS) d q,
      fs_mkdir t d = Some t' ->
      fs_stat t q = Some S_IFDIR -> fs_stat t' q = Some S_IFDIR) ->
  mtf_make_path fs p = (Success, fs') ->
  mtf_make_path fs' p = (Success, fs')
  /\ forall q,
       (forall c, In c (c_str q) -> c <> x2f /\ c <> x5c) ->
       mtf_make_path fs q = (Success, fs).
Proof.
  intros M K E. unfold mtf_make_path in *.
  rewrite make_path_scan_components in E. split.
  - rewrite make_path_scan_components.
    apply make_directories_existing.
    exact (proj2 (make_directories_ok M K _ fs fs' E)).
  - intros q A. rewrite make_path_scan_components.
    now rewrite (dir_components_no_separator q [] A).
Qed.

Lemma mtf_make_path_idempotent_witness :
  let fs' := snd (mtf_make_path Demo.disk path_accented) in
  mtf_make_path fs' path_accented = (Success, fs')
  /\ forall q,
       (forall c, In c (c_str q) -> c <> x2f /\ c <> x5c) ->
       mtf_make_path Demo.disk q = (Success, Demo.disk).
Proof.
  apply (mtf_make_path_idempotent Toy.fs Toy.toy_fs Demo.disk
           (snd (mtf_make_path Demo.disk path_accented)) path_accented
           toy_mkdir_makes_dir toy_mkdir_keeps_dirs).
  reflexivity.
Defined.

(** ** Loading what the layout describes *)

Lemma u8_to_u8 (z : Z) : u8 (to_u8 z) = z mod 256.
Proof.
  unfold to_u8, u8. pose proof (Z.mod_pos_bound z 256 ltac:(lia)) as R.
  destruct (Byte.of_N (Z.to_N (z mod 256))) as [b|] eqn:E.
  - apply Byte.to_of_N in E. rewrite E. lia.
  - apply Byte.of_N_None_iff in E. lia.
Qed.

Lemma le_decode_le_encode (n : nat) :
  forall z, 0 <= z < 256 ^ Z.of_nat n -> le_decode (le_encode n z) = z.
Proof.
  induction n as [|n IH]; intros z R.
  - simpl in *. lia.
  - cbn [le_encode le_decode]. rewrite u8_to_u8.
    rewrite Nat2Z.inj_succ, Z.pow_succ_r in R by lia.
    rewrite IH.
    + pose proof (Z.div_mod z 256 ltac:(lia)). lia.
    + split; [apply Z.div_pos; lia | apply Z.div_lt_upper_bound; lia].
Qed.

Lemma length_le_encode (n : nat) (z : Z) : length (le_encode n z) = n.
Proof.
  revert z. induction n as [|n IH]; intros z; [reflexivity|].
  cbn [le_encode length]. now rewrite IH.
Qed.

Lemma firstn_exact (A : Type) (n : nat) (a b : list A) :
  n = length a -> firstn n (a ++ b) = a.
Proof.
  intros ->. rewrite firstn_app, Nat.sub_diag, firstn_all. simpl.
  apply app_nil_r.
Qed.

Lemma skipn_exact (A : Type) (n : nat) (a b : list A) :
  n = length a -> skipn n (a ++ b) = b.
Proof.
  intros ->. rewrite skipn_app, Nat.sub_diag, skipn_all. reflexivity.
Qed.

(** One row of the layout is read back as its entry. *)
Lemma read_entry_row (f : FILE_in) (r : table_row) (more : list byte) :
  row_fits r ->
  f_rest f = row_bytes r ++ more ->
  exists f',
    read_entry f = (Success, row_entry r, f') /\ f_rest f' = more.
Proof.
  destruct r as [[name offset] size]. intros (Ln & Ro & Rs) E.
  pose proof (read_entry_spec f) as S. cbv zeta in S.
  unfold row_bytes in E. rewrite E in S.
  assert (W : forall z rest, length (le_encode 4 z ++ rest) = (4 + length rest)%nat).
  { intros. now rewrite length_app, length_le_encode. }
  assert (D : le_decode (firstn 4 (le_encode 4 (Z.of_nat (length name)) ++ name
                ++ le_encode 4 offset ++ le_encode 4 size ++ more))
              = Z.of_nat (length name)).
  { rewrite firstn_exact by (now rewrite length_le_encode).
    apply le_decode_le_encode. change (256 ^ Z.of_nat 4) with (2 ^ 32). lia. }
  rewrite <- !app_assoc in S. rewrite D, Nat2Z.id in S.
  assert (T : length (le_encode 4 (Z.of_nat (length name)) ++ name
                ++ le_encode 4 offset ++ le_encode 4 size ++ more)
              = (length name + 12 + length more)%nat).
  { rewrite W, length_app, W, W. lia. }
  rewrite T in S.
  replace (4 <=? length name + 12 + length more)%nat with true in S
    by (symmetry; apply Nat.leb_le; lia).
  replace (length name + 12 <=? length name + 12 + length more)%nat
    with true in S by (symmetry; apply Nat.leb_le; lia).
  cbn [andb] in S. destruct S as (f' & R & K).
  exists f'. split.
  - rewrite R. unfold row_entry. f_equal. f_equal.
    rewrite (skipn_exact _ 4) by (now rewrite length_le_encode).
    rewrite (firstn_exact _ (length name)) by reflexivity.
    replace (le_encode 4 (Z.of_nat (length name)) ++ name
             ++ le_encode 4 offset ++ le_encode 4 size ++ more)
      with ((le_encode 4 (Z.of_nat (length name)) ++ name)
            ++ le_encode 4 offset ++ le_encode 4 size ++ more)
      by (now rewrite <- app_assoc).
    rewrite (skipn_exact _ (4 + length name))
      by (now rewrite length_app, length_le_encode).
    rewrite (firstn_exact _ 4) by (now rewrite length_le_encode).
    rewrite le_decode_le_encode
      by (change (256 ^ Z.of_nat 4) with (2 ^ 32); lia).
    replace ((le_encode 4 (Z.of_nat (length name)) ++ name)
             ++ le_encode 4 offset ++ le_encode 4 size ++ more)
      with (((le_encode 4 (Z.of_nat (length name)) ++ name)
             ++ le_encode 4 offset) ++ le_encode 4 size ++ more)
      by (now rewrite <- app_assoc).
    rewrite (skipn_exact _ (8 + length name))
      by (rewrite !length_app, !length_le_encode; lia).
    rewrite (firstn_exact _ 4) by (now rewrite length_le_encode).
    rewrite le_decode_le_encode
      by (change (256 ^ Z.of_nat 4) with (2 ^ 32); lia).
    reflexivity.
  - rewrite K.
    replace (le_encode 4 (Z.of_nat (length name)) ++ name
             ++ le_encode 4 offset ++ le_encode 4 size ++ more)
      with ((le_encode 4 (Z.of_nat (length name)) ++ name
             ++ le_encode 4 offset ++ le_encode 4 size) ++ more)
      by (now rewrite <- !app_assoc).
    apply skipn_exact. rewrite !length_app, !length_le_encode. lia.
Qed.

Lemma read_entries_rows (rows : list table_row) :
  forall (f : FILE_in) (done : list mtf_file_entry_t) (more : list byte),
    Forall row_fits rows ->
    f_rest f = flat_map row_bytes rows ++ more ->
    exists f',
      read_entries (length rows) f done
      = (Success, done ++ map row_entry rows, f')
      /\ f_rest f' = more.
Proof.
  induction rows as [|r rows IH]; intros f done more F E.
  - exists f. simpl. rewrite app_nil_r. auto.
  - inversion F as [|? ? Fr Frows]; subst.
    cbn [flat_map] in E. rewrite <- app_assoc in E.
    destruct (read_entry_row f r _ Fr E) as (f1 & R & K).
    cbn [length read_entries map]. rewrite R.
    destruct (IH f1 (done ++ [row_entry r]) more Frows K) as (f' & R' & K').
    exists f'. rewrite R', <- app_assoc. auto.
Qed.

(** X13: an archive that starts with the entry table of the layout (a
    count that is not zero, then the rows, every word within its 32 bits)
    is loaded with success: the handle holds the count of the rows and
    their entries, each name copied and terminated, arranged in ascending
    order of filename, nothing is released, and the stream stands right
    behind the table. *)
Theorem mtf_file_open_reads_layout (rows : list table_row)
    (payload : list byte) :
  rows <> [] ->
  Z.of_nat (length rows) < 2 ^ 32 ->
  Forall row_fits rows ->
  exists f2 sorted,
    mtf_file_open (Some (file_of (table_bytes rows ++ payload)))
    = (Success, mkMtf (Some f2) (Some sorted) (Z.of_nat (length rows)), [])
    /\ f_rest f2 = payload
    /\ Permutation (map row_entry rows) sorted
    /\ StronglySorted filename_le sorted.
Proof.
  intros N L F. set (f := file_of (table_bytes rows ++ payload)).
  assert (E : f_rest f
              = le_encode 4 (Z.of_nat (length rows))
                ++ flat_map row_bytes rows ++ payload).
  { unfold f, file_of, f_rest, table_bytes. cbn [f_pos f_data skipn].
    symmetry. apply app_assoc. }
  assert (D : le_decode (firstn 4 (f_rest f)) = Z.of_nat (length rows)).
  { rewrite E, firstn_exact by (now rewrite length_le_encode).
    apply le_decode_le_encode. change (256 ^ Z.of_nat 4) with (2 ^ 32). lia. }
  unfold mtf_file_open.
  destruct (mtf_read32_cases f 0) as [[_ R] | [S _]].
  2:{ rewrite E, length_app, length_le_encode in S. lia. }
  rewrite R, D. cbn [negb].
  replace (Z.of_nat (length rows) =? 0) with false.
  2:{ symmetry. apply Z.eqb_neq. destruct rows; [congruence | simpl; lia]. }
  rewrite Nat2Z.id.
  assert (K : f_rest (advance 4 f) = flat_map row_bytes rows ++ payload).
  { rewrite f_rest_advance, E. apply skipn_exact. now rewrite length_le_encode. }
  destruct (read_entries_rows rows (advance 4 f) [] payload F K)
    as (f2 & R2 & K2).
  rewrite R2. cbn [app].
  exists f2, (qsort mtf_sort_by_filename (map row_entry rows)).
  split; [reflexivity|]. split; [exact K2|]. split.
  - apply qsort_perm.
  - apply (qsort_sorted _ mtf_sort_by_filename
             filename_le_total filename_le_trans).
Qed.

Lemma mtf_file_open_reads_layout_witness :
  exists f2 sorted,
    mtf_file_open (Some (file_of (table_bytes small_rows ++ [x68; x69; x21])))
    = (Success,
       mkMtf (Some f2) (Some sorted) (Z.of_nat (length small_rows)), [])
    /\ f_rest f2 = [x68; x69; x21]
    /\ Permutation (map row_entry small_rows) sorted
    /\ StronglySorted filename_le sorted.
Proof.
  apply (mtf_file_open_reads_layout small_rows [x68; x69; x21]).
  - discriminate.
  - simpl. lia.
  - repeat constructor; simpl; lia.
Defined.

(** ** What a batch gives back and reports *)





Section BatchBalance.

Variable heap : nat -> Z -> byte.
Variable stack : nat -> list byte.
Context {FS : Type} `{FileSystem FS}.


(** The count of a loop that is left at its end or by [break]. *)
Lemma extract_loop_count_range (es : list mtf_file_entry_t) :
  forall e destPath max fs f c x,
    0 <= c -> c + Z.of_nat (length es) < 2 ^ 31 ->
    extract_loop heap stack es e destPath max fs f c = inr x ->
    c <= exit_count x <= c + Z.of_nat (length es)
    /\ (0 < max -> c < max -> exit_count x <= max).
Proof.
  induction es as [|entry es IH]; intros e destPath max fs f c x C0 B E.
  - simpl in E. inversion E; subst. simpl. lia.
  - cbn [extract_loop] in E. cbn [length] in B.
    destruct (extract_entry heap stack e destPath fs f entry)
      as [m fs' f' | [|] fs' f']; [discriminate| |].
    + rewrite sint32_small in E by lia.
      destruct ((0 <? max) && (c + 1 =? max)) eqn:C.
      * inversion E; subst. cbn [exit_count length].
        apply andb_prop in C. destruct C as [_ C]. apply Z.eqb_eq in C. lia.
      * assert (C1 : 0 <= c + 1) by lia.
        assert (B1 : c + 1 + Z.of_nat (length es) < 2 ^ 31) by lia.
        destruct (IH _ _ _ _ _ (c + 1) x C1 B1 E) as [R K].
        cbn [length]. split; [lia|]. intros M1 M2. apply K; [exact M1|].
        apply andb_false_iff in C. destruct C as [C|C].
        -- apply Z.ltb_ge in C. lia.
        -- apply Z.eqb_neq in C. lia.
    + assert (B1 : c + Z.of_nat (length es) < 2 ^ 31) by lia.
      destruct (IH _ _ _ _ _ c x C0 B1 E) as [R K].
      cbn [length]. split; [lia | exact K].
Qed.

End BatchBalance.



(** X15: the count a batch stores lies between zero and the number of
    entries of the table, and a positive cap bounds it as well (for a
    table of fewer than [2^31] entries, so that the [int] counter cannot
    wrap). *)
Theorem files_extracted_range (FS : Type) (H : FileSystem FS)
    (heap : nat -> Z -> byte) (stack : nat -> list byte) (f : FILE_in)
    (destPath : list byte) (max : Z) (fs : FS) (mtf : mtf_file_t)
    (freed : list release) (n : Z) :
  mtf_file_open (Some f) = (Success, mtf, freed) ->
  fileEntryCount mtf < 2 ^ 31 ->
  filesExtracted (mtf_file_extract_batch heap stack (Some f) destPath max fs)
  = Some n ->
  0 <= n <= fileEntryCount mtf /\ (0 < max -> n <= max).
Proof.
  intros O B E.
  destruct (mtf_file_open_handle f mtf freed O)
    as (f2 & es & Eh & Ee & _ & L & C & _).
  pose proof (mtf_file_extract_batch_result heap stack (Some f) destPath max fs
                mtf freed f2 es O Eh Ee) as R.
  cbv zeta in R. rewrite <- L, firstn_all in R.
  destruct (extract_loop heap stack es 0 destPath max fs f2 0)
    as [[[m fs'] f'] | x] eqn:Lp.
  - destruct R as (_ & _ & N). rewrite N in E. discriminate.
  - destruct R as (_ & N & _). rewrite N in E. injection E as <-.
    assert (C0 : 0 <= 0) by lia.
    assert (B0 : 0 + Z.of_nat (length es) < 2 ^ 31) by lia.
    destruct (extract_loop_count_range heap stack es 0 destPath max fs f2 0 x
                C0 B0 Lp) as [R1 R2].
    split; [lia|]. intros M. apply R2; lia.
Qed.

Lemma files_extracted_range_witness :
  0 <= 3 <= fileEntryCount Demo.opened /\ (0 < 3 -> 3 <= 3).
Proof.
  apply (files_extracted_range Toy.fs Toy.toy_fs Demo.heaps0 Demo.stack0
           (file_of Demo.archive) Demo.out 3 Demo.disk Demo.opened
           (snd (mtf_file_open (Some (file_of Demo.archive)))) 3).
  - vm_compute. reflexivity.
  - vm_compute. reflexivity.
  - vm_compute. reflexivity.
Defined.

(** ** The last-error string *)

Section LastErrorFacts.

Variable heap : nat -> Z -> byte.
Variable stack : nat -> list byte.
Context {FS : Type} `{FileSystem FS}.

(** The string a round leaves, by the way the round ends. *)
Lemma extract_entry_error_cases (e : nat) (destPath : list byte) (fs : FS)
    (f : FILE_in) (entry : mtf_file_entry_t) (err : option mtf_msg) :
  match extract_entry heap stack e destPath fs f entry with
  | Fatal m _ _ =>
      extract_entry_error heap stack e destPath fs f entry err = Some m
      /\ (m = MsgHeader \/ m = MsgCreateOutput)
  | Done false _ _ =>
      exists m, extract_entry_error heap stack e destPath fs f entry err = Some m
  | Done true _ _ =>
      extract_entry_error heap stack e destPath fs f entry err
      = last_error_after
          (fst (mtf_make_path fs
                  (mtf_fix_filepath (snprintf_path destPath (name_of entry)))))
          err
  end.
Proof.
  unfold extract_entry, extract_entry_error.
  destruct (mtf_read_compressed_header f (dataOffset entry) (stack e))
    as [[ok h] f1].
  destruct (negb ok); [cbn; auto|].
  destruct (mtf_make_path fs _) as [made fs1]. cbn [fst].
  destruct (fs_fopen_wb fs1 _) as [fs2|]; [|cbn; auto].
  destruct (mtf_is_compressed h).
  - destruct (mtf_decompress_write_file _ _ _ _ _) as [[[|m] fs3] f2];
      cbn [is_success last_error_after mtf_error snd]; eauto.
  - destruct (mtf_write_file _ _ _ _ _) as [[[|m] fs3] f2];
      cbn [is_success last_error_after mtf_error snd]; eauto.
Qed.

Lemma last_error_after_none (st : status) (err : option mtf_msg) :
  last_error_after st err = None -> st = Success /\ err = None.
Proof. destruct st; cbn; [auto | discriminate]. Qed.

(** An empty string after the loop: it was empty before, no round
    returned early and every round the loop went through extracted its
    entry. *)
Lemma extract_loop_error_none (es : list mtf_file_entry_t) :
  forall e destPath max fs f c err,
    0 <= c -> c + Z.of_nat (length es) < 2 ^ 31 ->
    extract_loop_error heap stack es e destPath max fs f c err = None ->
    err = None
    /\ exists x,
        extract_loop heap stack es e destPath max fs f c = inr x
        /\ (exit_count x = c + Z.of_nat (length es)
            \/ (0 < max /\ exit_count x = max)).
Proof.
  induction es as [|entry es IH]; intros e destPath max fs f c err C0 B E.
  - simpl in E. subst err. split; [reflexivity|].
    eexists. split; [reflexivity|]. left. simpl. lia.
  - cbn [extract_loop_error extract_loop] in E |- *. cbn [length] in B.
    pose proof (extract_entry_error_cases e destPath fs f entry err) as K.
    destruct (extract_entry heap stack e destPath fs f entry)
      as [m fs' f' | [|] fs' f'].
    + destruct K as [K _]. congruence.
    + rewrite sint32_small in E |- * by lia.
      destruct ((0 <? max) && (c + 1 =? max)) eqn:Cap.
      * rewrite K in E. apply last_error_after_none in E.
        split; [tauto|]. eexists. split; [reflexivity|]. right.
        apply andb_prop in Cap. destruct Cap as [C1 C2].
        apply Z.ltb_lt in C1. apply Z.eqb_eq in C2. cbn [exit_count]. lia.
      * assert (C1 : 0 <= c + 1) by lia.
        assert (B1 : c + 1 + Z.of_nat (length es) < 2 ^ 31) by lia.
        destruct (IH _ _ _ _ _ _ _ C1 B1 E) as (E1 & x & L & R).
        rewrite K in E1. apply last_error_after_none in E1.
        split; [tauto|]. exists x. split; [exact L|].
        cbn [length]. destruct R as [R|R]; [left; lia | right; exact R].
    + assert (B1 : c + Z.of_nat (length es) < 2 ^ 31) by lia.
      destruct (IH _ _ _ _ _ _ _ C0 B1 E) as (E1 & _).
      destruct K as [m K]. congruence.
Qed.


End LastErrorFacts.




(** X16: the last-error string is empty after a batch only when it was
    empty before and the batch returned true with every entry it went
    through extracted: the count stored is the number of entries, or the
    positive cap.  (A batch returns true also when entries were skipped;
    their messages stay in the string, and so does a message left by an
    earlier call.) *)
Theorem empty_last_error_means_complete (FS : Type) (H : FileSystem FS)
    (heap : nat -> Z -> byte) (stack : nat -> list byte)
    (opened : option FILE_in) (destPath : list byte) (max : Z) (fs : FS)
    (err : option mtf_msg) :
  Z.of_nat (length (loaded_entries opened)) < 2 ^ 31 ->
  batch_last_error heap stack opened destPath max fs err = None ->
  let r := mtf_file_extract_batch heap stack opened destPath max fs in
  err = None /\ batch_ok r = true
  /\ (filesExtracted r = Some (Z.of_nat (length (loaded_entries opened)))
      \/ (0 < max /\ filesExtracted r = Some max)).
Proof.
  intros B E r. subst r.
  unfold batch_last_error, mtf_file_extract_batch, loaded_entries in *.
  destruct (mtf_file_open opened) as [[[|m] mtf] freed] eqn:O;
    [|discriminate].
  destruct opened as [f|]; [|discriminate].
  destruct (mtf_file_open_handle f mtf freed O)
    as (f2 & es & Eh & Ee & _ & L & _).
  rewrite Eh, Ee in *. rewrite <- L, firstn_all in *.
  assert (C0 : 0 <= 0) by lia.
  assert (B0 : 0 + Z.of_nat (length es) < 2 ^ 31) by lia.
  destruct (extract_loop_error_none heap stack es 0 destPath max fs f2 0 err
              C0 B0 E) as (E0 & x & Lp & R).
  rewrite Lp. cbn [batch_ok filesExtracted].
  split; [exact E0|]. split; [reflexivity|].
  destruct R as [R|[R1 R2]]; [left | right; split; [exact R1|]];
    f_equal; lia.
Qed.

Lemma empty_last_error_means_complete_witness :
  let r := mtf_file_extract_batch Demo.heaps0 Demo.stack0
             (Some (file_of small_archive)) Demo.out MTF_EXTRACT_ALL
             Demo.disk in
  @None mtf_msg = None /\ batch_ok r = true
  /\ (filesExtracted r
      = Some (Z.of_nat (length (loaded_entries (Some (file_of small_archive)))))
      \/ (0 < MTF_EXTRACT_ALL /\ filesExtracted r = Some MTF_EXTRACT_ALL)).
Proof.
  apply (empty_last_error_means_complete Toy.fs Toy.toy_fs Demo.heaps0
           Demo.stack0 (Some (file_of small_archive)) Demo.out MTF_EXTRACT_ALL
           Demo.disk None).
  - vm_compute. reflexivity.
  - vm_compute. reflexivity.
Defined.

(** ** The command-line tool *)



(** ** A compressed entry, end to end *)

(** X18: a round on an entry whose data starts with the magic bytes and
    holds, behind the twelve bytes of the header, chunks of eight literal
    bytes for the declared size, writes exactly these literal bytes to
    the file at the fixed path and leaves the archive stream behind the
    last chunk.  The other ten bytes of the header, the sizes it
    advertises among them, play no part. *)
Theorem compressed_entry_extracted (FS : Type) (H : FileSystem FS)
    (heap : nat -> Z -> byte) (stack : nat -> list byte) (e : nat)
    (destPath : list byte) (fs fs2 fs3 : FS) (f : FILE_in)
    (entry : mtf_file_entry_t) (m1 : byte) (hdr lits tail : list byte)
    (k : nat) :
  f_error f = false ->
  m1 = xae \/ m1 = xaf ->
  length hdr = 10%nat ->
  (0 < k)%nat -> length lits = (8 * k)%nat -> Z.of_nat (8 * k) < 2 ^ 32 ->
  decompressedSize entry = Z.of_nat (8 * k) ->
  skipn (Z.to_nat (dataOffset entry)) (f_data f)
  = m1 :: xbe :: hdr ++ literal_chunks k lits ++ tail ->
  let p := mtf_fix_filepath (snprintf_path destPath (name_of entry)) in
  fs_fopen_wb (snd (mtf_make_path fs p)) p = Some fs2 ->
  fs_fwrite fs2 p lits = (fs3, length lits) ->
  exists f3,
    extract_entry heap stack e destPath fs f entry = Done true fs3 f3
    /\ f_rest f3 = tail.
Proof.
  intros Er M Lh K Ll B Sz D p O W.
  set (g := fseek (dataOffset entry) f).
  assert (Rg : f_rest g = (m1 :: xbe :: hdr) ++ literal_chunks k lits ++ tail).
  { unfold g. rewrite f_rest_fseek. exact D. }
  assert (L12 : length (m1 :: xbe :: hdr) = 12%nat) by (simpl; lia).
  assert (Hh : mtf_read_compressed_header f (dataOffset entry) (stack e)
               = (true,
                  header_of_bytes (overlay (m1 :: xbe :: hdr) (stack e)),
                  advance 12 g)).
  { unfold mtf_read_compressed_header. fold g.
    rewrite (fread_full 12 g)
      by (rewrite Rg, length_app, L12; lia).
    rewrite Rg, (firstn_exact _ 12) by (now rewrite L12).
    unfold advance, g, fseek. cbn [f_error]. now rewrite Er. }
  rewrite (extract_entry_payload heap stack e destPath fs fs2 f (advance 12 g)
             entry _ Hh O).
  fold p.
  assert (C : mtf_is_compressed
                (header_of_bytes (overlay (m1 :: xbe :: hdr) (stack e)))
              = true).
  { apply mtf_is_compressed_iff. unfold header_of_bytes, overlay.
    cbn [magic1 magic2 app nth]. auto. }
  rewrite C.
  assert (R12 : f_rest (advance 12 g) = literal_chunks k lits ++ tail).
  { rewrite f_rest_advance, Rg. apply skipn_exact. now rewrite L12. }
  destruct (mtf_decode_literals (heap e) k lits tail (advance 12 g) Ll B R12)
    as (f3 & Dc & R3).
  unfold mtf_decompress_write_file. rewrite Sz, Dc.
  cbn [d_out d_in]. rewrite Nat2Z.id, <- Ll, buffer_bytes_exact, W.
  rewrite Nat.eqb_refl. cbn [is_success]. exists f3. auto.
Qed.

Lemma compressed_entry_extracted_witness :
  let entry := mkEntry (Some [x7a; x00]) 2 0 8 in
  let lits := [x44; x41; x52; x4b; x53; x54; x4f; x4e] in
  let f := file_of (xaf :: xbe :: repeat xff 10 ++ literal_chunks 1 lits ++ [x21]) in
  let fs2 := Toy.mkFs [(Demo.out, Toy.Dir); (Demo.out ++ [x2f; x7a], Toy.File [])] 100 in
  let fs3 := Toy.mkFs [(Demo.out, Toy.Dir); (Demo.out ++ [x2f; x7a], Toy.File lits)] 92 in
  exists f3,
    extract_entry Demo.heaps0 Demo.stack0 0 Demo.out Demo.disk f entry
    = Done true fs3 f3
    /\ f_rest f3 = [x21].
Proof.
  intros entry lits f fs2 fs3.
  apply (compressed_entry_extracted Toy.fs Toy.toy_fs Demo.heaps0 Demo.stack0 0
           Demo.out Demo.disk fs2 fs3 f entry xaf (repeat xff 10) lits [x21] 1).
  - reflexivity.
  - now right.
  - reflexivity.
  - lia.
  - reflexivity.
  - simpl. lia.
  - reflexivity.
  - reflexivity.
  - vm_compute. reflexivity.
  - vm_compute. reflexivity.
Defined.
